(** * Code2Video: the narration timeline of the typewriter renderer,
    the semantic animator and the avatar renderer

  A shallow embedding of the timing code of
  [typewriter_avatar_renderer.py], [semantic_animator.py] and
  [avatar_renderer.py].

  Conventions of the embedding.
  - A Python [float] instant or duration is a rational number ([Q]);
    arithmetic is exact, comparisons are the ones of the source.
  - A Python [str] is a [string] of ASCII characters; [len] is
    [String.length].
  - A Python [int] that counts characters, words or lines is a [nat].
  - An expression that can raise is a computation in the monad [exc]:
    float division raises [ZeroDivisionError] on a zero divisor. *)

From Stdlib Require Import List String Ascii Bool Arith ZArith QArith Qabs.
From Stdlib Require Import Lia Lqa.
Import ListNotations.

Set Implicit Arguments.
Close Scope Q_scope.

(** ** Python primitives *)

Module Py.

Inductive error : Type :=
| ZeroDivisionError.

Inductive exc (A : Type) : Type :=
| Ok (a : A)
| Raise (e : error).

Arguments Ok {A} a.
Arguments Raise {A} e.

Definition ret {A} (a : A) : exc A := Ok a.

Definition bind {A B} (m : exc A) (k : A -> exc B) : exc B :=
  match m with
  | Ok a => k a
  | Raise e => Raise e
  end.

(** [for x in xs: ys.append(f x)], where [f x] may raise. *)
Fixpoint mapM {A B} (f : A -> exc B) (xs : list A) : exc (list B) :=
  match xs with
  | [] => ret []
  | x :: xs' =>
      bind (f x) (fun y => bind (mapM f xs') (fun ys => ret (y :: ys)))
  end.

(** Comparisons of floats, as booleans. *)
Definition geb (a b : Q) : bool := Qle_bool b a.
Definition leb (a b : Q) : bool := Qle_bool a b.
Definition ltb (a b : Q) : bool := negb (Qle_bool b a).
Definition gtb (a b : Q) : bool := negb (Qle_bool a b).

(** [a / b] on floats. *)
Definition fdiv (a b : Q) : exc Q :=
  if Qeq_bool b 0%Q then Raise ZeroDivisionError else Ok (a / b)%Q.

Definition of_nat (n : nat) : Q := inject_Z (Z.of_nat n).

(** [int(x)]: truncation toward zero. *)
Definition int (x : Q) : Z := Z.quot (Qnum x) (Zpos (Qden x)).

(** Truth value of a [str] and of a [list]. *)
Definition truthy_str (s : string) : bool :=
  match s with EmptyString => false | String _ _ => true end.

Definition truthy_list {A} (l : list A) : bool :=
  match l with [] => false | _ :: _ => true end.

(** [c.isspace()] on ASCII: tab, line feed, vertical tab, form feed,
    carriage return, the four separators 28..31 and the blank. *)
Definition isspace (c : ascii) : bool :=
  let n := nat_of_ascii c in
  ((9 <=? n) && (n <=? 13)) || ((28 <=? n) && (n <=? 31)) || (n =? 32).

(** [s.split()]: maximal runs of non-blank characters. [cur] is the
    word being read. *)
Fixpoint split_from (cur : string) (s : string) : list string :=
  match s with
  | EmptyString => if truthy_str cur then [cur] else []
  | String c r =>
      if isspace c
      then (if truthy_str cur then cur :: split_from EmptyString r
            else split_from EmptyString r)
      else split_from (cur ++ String c EmptyString) r
  end.

Definition split (s : string) : list string := split_from EmptyString s.

(** [" ".join(ws)]. *)
Fixpoint join (ws : list string) : string :=
  match ws with
  | [] => EmptyString
  | [w] => w
  | w :: ws' => w ++ " " ++ join ws'
  end.

(** [c.lower()] on ASCII. *)
Definition lower_ascii (c : ascii) : ascii :=
  let n := nat_of_ascii c in
  if (65 <=? n) && (n <=? 90) then ascii_of_nat (n + 32) else c.

Fixpoint lower (s : string) : string :=
  match s with
  | EmptyString => EmptyString
  | String c r => String (lower_ascii c) (lower r)
  end.

(** [sub in s]. *)
Fixpoint contains (sub s : string) : bool :=
  prefix sub s ||
  match s with
  | EmptyString => false
  | String _ r => contains sub r
  end.

(** [s.strip()]: the blanks at both ends removed. *)
Fixpoint lstrip (s : string) : string :=
  match s with
  | EmptyString => EmptyString
  | String c r => if isspace c then lstrip r else s
  end.

Fixpoint rstrip (s : string) : string :=
  match s with
  | EmptyString => EmptyString
  | String c r =>
      match rstrip r with
      | EmptyString => if isspace c then EmptyString else String c EmptyString
      | r' => String c r'
      end
  end.

Definition strip (s : string) : string := rstrip (lstrip s).

(** [range(0, stop, step)] for a positive [step]. *)
Definition range_step (stop step : nat) : list nat :=
  map (fun k => k * step) (seq 0 ((stop + step - 1) / step)).

(** [l[i:j]]. *)
Definition slice {A} (l : list A) (i j : nat) : list A :=
  firstn (j - i) (skipn i l).

End Py.

Import Py.

Declare Scope py_scope.
Delimit Scope py_scope with py.
Notation "x <- m ;; k" := (bind m (fun x => k))
(at level 61, m at next level, right associativity) : py_scope.
Infix ">=?" := geb (at level 70) : py_scope.
Infix "<=?" := leb (at level 70) : py_scope.
Infix "<?" := ltb (at level 70) : py_scope.
Infix ">?" := gtb (at level 70) : py_scope.

(** ** typewriter_avatar_renderer.py *)

Module Typewriter.

Local Open Scope Q_scope.
Local Open Scope py_scope.

Record WordTiming : Type := mkWordTiming {
  word : string;
  start_time : Q;
  end_time : Q;
  char_positions : list Q
}.

Record LineData : Type := mkLineData {
  words : list WordTiming;
  line_start_time : Q;
  line_end_time : Q;
  text : string;
  max_chars : nat
}.

(** The attributes of [TypewriterAvatarRenderer] that the timing code
    reads. *)
Record Renderer : Type := mkRenderer {
  max_lines : nat;
  max_chars_per_line : nat;
  fade_duration : Q
}.

(** The values [__init__] assigns. *)
Definition default_renderer : Renderer :=
  {| max_lines := 3; max_chars_per_line := 60; fade_duration := 1 # 2 |}.

(** [_estimate_char_timings]. *)
Definition _estimate_char_timings (w : string) (start_t end_t : Q)
  : exc (list Q) :=
  let duration := end_t - start_t in
  let char_count := String.length w in
  if Nat.eqb char_count 0 then ret []
  else
    mapM (fun i =>
            q <- fdiv (duration * of_nat i) (of_nat char_count) ;;
            ret (start_t + q))
         (seq 0 char_count).

(** The body of the loop of [extract_word_timings] over the words of a
    transcript: [raw], [start_t] and [end_t] are [word_info["word"]],
    [word_info["start"]] and [word_info["end"]]. *)
Definition transcript_word (raw : string) (start_t end_t : Q)
  : exc WordTiming :=
  cps <- _estimate_char_timings raw start_t end_t ;;
  ret (mkWordTiming (strip raw) start_t end_t cps).

(** The loop of [_estimate_word_timings]: [current_time] is the loop
    variable, the result is the list of the appended timings. *)
Fixpoint estimate_loop (avg_word_duration : Q) (ws : list string)
         (current_time : Q) : exc (list WordTiming) :=
  match ws with
  | [] => ret []
  | w :: rest =>
      r <- fdiv (of_nat (String.length w)) 5 ;;
      let word_duration := avg_word_duration * r in
      let end_t := current_time + word_duration in
      cps <- _estimate_char_timings w current_time end_t ;;
      tl <- estimate_loop avg_word_duration rest end_t ;;
      ret (mkWordTiming w current_time end_t cps :: tl)
  end.

(** [_estimate_word_timings]. *)
Definition _estimate_word_timings (txt : string) (audio_duration : Q)
  : exc (list WordTiming) :=
  let ws := split txt in
  if negb (truthy_list ws) then ret []
  else
    avg_word_duration <- fdiv audio_duration (of_nat (List.length ws)) ;;
    estimate_loop avg_word_duration ws 0.

(** The local variables of [organize_text_into_lines]. *)
Record SegState : Type := mkSegState {
  lines : list LineData;
  current_line_words : list WordTiming;
  current_line_text : string;
  current_line_start : Q
}.

Definition seg_init : SegState :=
  {| lines := []; current_line_words := [];
     current_line_text := EmptyString; current_line_start := 0 |}.

(** One iteration of the loop of [organize_text_into_lines]. *)
Definition seg_step (r : Renderer) (st : SegState) (wt : WordTiming)
  : SegState :=
  let test_text :=
    if truthy_str (current_line_text st)
    then (current_line_text st ++ " " ++ word wt)%string
    else word wt in
  if Nat.ltb (max_chars_per_line r) (String.length test_text)
     && truthy_list (current_line_words st)
  then
    let line_end := start_time wt in
    {| lines := lines st ++
                [mkLineData (current_line_words st) (current_line_start st)
                   line_end (current_line_text st)
                   (String.length (current_line_text st))];
       current_line_words := [wt];
       current_line_text := word wt;
       current_line_start := start_time wt |}
  else
    {| lines := lines st;
       current_line_words := current_line_words st ++ [wt];
       current_line_text := test_text;
       current_line_start := current_line_start st |}.

(** [organize_text_into_lines]. *)
Definition organize_text_into_lines (r : Renderer)
           (word_timings : list WordTiming) : list LineData :=
  let st := fold_left (seg_step r) word_timings seg_init in
  if truthy_list (current_line_words st)
  then
    lines st ++
    [mkLineData (current_line_words st) (current_line_start st)
       (match rev word_timings with
        | wt :: _ => end_time wt
        | [] => current_line_start st
        end)
       (current_line_text st)
       (String.length (current_line_text st))]
  else lines st.

(** The fade progress that [get_visible_lines_at_time] computes for a
    line that passed the test [time >= line.start_time - fade_duration]:
    [None] stands for [continue]. *)
Definition fade_of (r : Renderer) (line : LineData) (time : Q)
  : exc (option Q) :=
  if time <? line_start_time line then
    p <- fdiv (time - (line_start_time line - fade_duration r))
              (fade_duration r) ;;
    ret (Some p)
  else if time >? line_end_time line then
    q <- fdiv (time - line_end_time line) (fade_duration r) ;;
    let fade_progress := 1 - q in
    if fade_progress <=? 0 then ret None else ret (Some fade_progress)
  else ret (Some 1).

(** The loop of [get_visible_lines_at_time]; [visible_lines] is the
    list built so far. *)
Fixpoint visible_loop (r : Renderer) (time : Q) (ls : list LineData)
         (visible_lines : list (LineData * Q))
  : exc (list (LineData * Q)) :=
  match ls with
  | [] => ret visible_lines
  | line :: rest =>
      if time >=? line_start_time line - fade_duration r then
        fp <- fade_of r line time ;;
        match fp with
        | None => visible_loop r time rest visible_lines
        | Some fade_progress =>
            let visible_lines' := visible_lines ++ [(line, fade_progress)] in
            if Nat.leb (max_lines r) (List.length visible_lines')
            then ret visible_lines'
            else visible_loop r time rest visible_lines'
        end
      else visible_loop r time rest visible_lines
  end.

(** [get_visible_lines_at_time]. *)
Definition get_visible_lines_at_time (r : Renderer) (ls : list LineData)
           (time : Q) : exc (list (LineData * Q)) :=
  visible_loop r time ls [].

(** The inner loop of [get_typing_progress]: the characters of a
    partly spoken word, up to the first one still in the future. *)
Fixpoint count_typed (time : Q) (cps : list Q) : nat :=
  match cps with
  | [] => 0
  | char_time :: rest =>
      if time >=? char_time then S (count_typed time rest) else 0
  end.

(** What one word adds to [typed_chars]. *)
Definition word_typed (time : Q) (w : WordTiming) : nat :=
  let word_chars := String.length (word w) in
  if time >=? end_time w then word_chars
  else if time >=? start_time w then count_typed time (char_positions w)
  else 0.

(** [get_typing_progress]. *)
Definition get_typing_progress (line : LineData) (time : Q) : nat :=
  if time <? line_start_time line then 0%nat
  else
    let typed_chars :=
      fold_left (fun acc w => (acc + word_typed time w)%nat) (words line) 0%nat in
    Nat.min typed_chars (String.length (text line)).

(** The loop of [get_bold_positions]; [char_index] is the index, in the
    text of the line, of the first character of the next word. *)
Fixpoint bold_loop (time : Q) (ws : list WordTiming) (char_index : nat)
  : list nat :=
  match ws with
  | [] => []
  | w :: rest =>
      let word_chars := String.length (word w) in
      (if (time >=? start_time w) && (time <=? end_time w)
       then map (fun i => (char_index + i)%nat) (seq 0 word_chars)
       else [])
      ++ bold_loop time rest (char_index + word_chars + 1)
  end.

(** [get_bold_positions]. *)
Definition get_bold_positions (line : LineData) (time : Q) : list nat :=
  bold_loop time (words line) 0.

End Typewriter.

(** ** semantic_animator.py *)

Module Semantic.

Local Open Scope string_scope.
Local Open Scope Q_scope.
Local Open Scope py_scope.

(** An entry of [animation_mappings]. *)
Record AnimData : Type := mkAnimData {
  keywords : list string;
  animation : string;
  emoji : string;
  color : nat * nat * nat
}.

(** The attributes of [SemanticAnimator] that the analysis reads. A
    Python [dict] iterates in insertion order: the table is the list of
    its items. *)
Record Animator : Type := mkAnimator {
  animation_duration : Q;
  animation_mappings : list (string * AnimData)
}.

(** The values [__init__] assigns. *)
Definition default_animator : Animator :=
  {| animation_duration := 2;
     animation_mappings :=
       [ ("function",
          mkAnimData ["function"; "def "; "method"; "call"; "invoke"]
            "function_call" "🔧" (255, 100, 100)%nat);
         ("loop",
          mkAnimData ["loop"; "for "; "while "; "iterate"; "repeat"]
            "loop_spin" "🔄" (100, 255, 100)%nat);
         ("condition",
          mkAnimData ["if "; "else"; "condition"; "check"; "compare"]
            "condition_check" "🤔" (100, 100, 255)%nat);
         ("recursion",
          mkAnimData ["recursion"; "recursive"; "call itself"; "base case"]
            "recursion_tree" "🌳" (255, 200, 100)%nat);
         ("array",
          mkAnimData ["array"; "list"; "element"; "index"; "position"]
            "array_highlight" "📊" (200, 100, 255)%nat);
         ("swap",
          mkAnimData ["swap"; "exchange"; "switch"; "interchange"]
            "swap_values" "🔄" (255, 150, 50)%nat);
         ("sort",
          mkAnimData ["sort"; "order"; "arrange"; "bubble"; "quick"]
            "sort_animation" "📈" (100, 255, 200)%nat);
         ("search",
          mkAnimData ["search"; "find"; "lookup"; "binary"; "linear"]
            "search_scan" "🔍" (255, 100, 200)%nat);
         ("stack",
          mkAnimData ["stack"; "push"; "pop"; "LIFO"; "last in"]
            "stack_push_pop" "📚" (150, 255, 100)%nat);
         ("queue",
          mkAnimData ["queue"; "enqueue"; "dequeue"; "FIFO"; "first in"]
            "queue_flow" "🚶" (100, 150, 255)%nat);
         ("pointer",
          mkAnimData ["pointer"; "reference"; "address"; "memory"]
            "pointer_move" "👆" (255, 255, 100)%nat);
         ("error",
          mkAnimData ["error"; "exception"; "bug"; "crash"; "fail"]
            "error_shake" "💥" (255, 50, 50)%nat);
         ("success",
          mkAnimData ["success"; "correct"; "working"; "solved"; "complete"]
            "success_check" "✅" (50, 255, 50)%nat) ] |}.

(** A trigger [dict] of [analyze_narration]. *)
Record Trigger : Type := mkTrigger {
  type : string;
  start_time : Q;
  duration : Q;
  text : string;
  keyword : string;
  trigger_emoji : string;
  trigger_color : nat * nat * nat
}.

(** The loop over [anim_data['keywords']]: the first keyword found in
    the segment, where the loop breaks. *)
Fixpoint first_keyword (segment_text : string) (kws : list string)
  : option string :=
  match kws with
  | [] => None
  | kw :: rest =>
      if contains (lower kw) (lower segment_text) then Some kw
      else first_keyword segment_text rest
  end.

(** The loop over [animation_mappings.items()] for one segment: the
    triggers it appends, in the order of the table. *)
Fixpoint segment_triggers (anim_dur : Q) (segment_text : string)
         (start_t : Q) (table : list (string * AnimData)) : list Trigger :=
  match table with
  | [] => []
  | (anim_type, anim_data) :: rest =>
      match first_keyword segment_text (keywords anim_data) with
      | Some kw =>
          mkTrigger anim_type start_t anim_dur segment_text kw
            (emoji anim_data) (color anim_data)
          :: segment_triggers anim_dur segment_text start_t rest
      | None => segment_triggers anim_dur segment_text start_t rest
      end
  end.

(** [[words[j:j+10] for j in range(0, total_words, 10)]]. *)
Definition word_groups (ws : list string) : list (list string) :=
  map (fun j => slice ws j (j + 10)) (range_step (List.length ws) 10).

(** [enumerate]. *)
Definition enumerate {A} (l : list A) : list (nat * A) :=
  combine (seq 0 (List.length l)) l.

(** [analyze_narration]. *)
Definition analyze_narration (a : Animator) (narration_text : string)
           (dur : Q) : exc (list Trigger) :=
  if negb (truthy_str narration_text) then ret []
  else
    let ws := split narration_text in
    let total_words := List.length ws in
    segment_duration <- fdiv dur (of_nat (Nat.max 1 (total_words / 10))) ;;
    ret (flat_map
           (fun iw : nat * list string =>
              let segment_text := join (snd iw) in
              let start_t := of_nat (fst iw) * segment_duration in
              segment_triggers (animation_duration a) segment_text start_t
                (animation_mappings a))
           (enumerate (word_groups ws))).

(** The overlay image that [create_animation_overlay] returns: the
    drawing method that made it, the trigger and the progress it was
    given. *)
Inductive Image : Type :=
| Drawn (method : string) (trigger : Trigger) (progress : Q).

(** [create_animation_overlay]. *)
Definition create_animation_overlay (trigger : Trigger) (time : Q)
  : exc (option Image) :=
  let anim_type := type trigger in
  let anim_start := start_time trigger in
  let anim_duration := duration trigger in
  if (time <? anim_start) || (time >? anim_start + anim_duration)
  then ret None
  else
    progress <- fdiv (time - anim_start) anim_duration ;;
    if String.eqb anim_type "function_call" then
      ret (Some (Drawn "_create_function_call_animation" trigger progress))
    else if String.eqb anim_type "loop_spin" then
      ret (Some (Drawn "_create_loop_spin_animation" trigger progress))
    else if String.eqb anim_type "condition_check" then
      ret (Some (Drawn "_create_condition_check_animation" trigger progress))
    else if String.eqb anim_type "recursion_tree" then
      ret (Some (Drawn "_create_recursion_tree_animation" trigger progress))
    else if String.eqb anim_type "array_highlight" then
      ret (Some (Drawn "_create_array_highlight_animation" trigger progress))
    else if String.eqb anim_type "swap_values" then
      ret (Some (Drawn "_create_swap_values_animation" trigger progress))
    else if String.eqb anim_type "sort_animation" then
      ret (Some (Drawn "_create_sort_animation" trigger progress))
    else if String.eqb anim_type "search_scan" then
      ret (Some (Drawn "_create_search_scan_animation" trigger progress))
    else if String.eqb anim_type "stack_push_pop" then
      ret (Some (Drawn "_create_stack_animation" trigger progress))
    else if String.eqb anim_type "queue_flow" then
      ret (Some (Drawn "_create_queue_animation" trigger progress))
    else if String.eqb anim_type "pointer_move" then
      ret (Some (Drawn "_create_pointer_animation" trigger progress))
    else if String.eqb anim_type "error_shake" then
      ret (Some (Drawn "_create_error_animation" trigger progress))
    else if String.eqb anim_type "success_check" then
      ret (Some (Drawn "_create_success_animation" trigger progress))
    else ret None.

(** The loop of [apply_animations_to_frame]: the overlays pasted on the
    frame, each with the index of its trigger. *)
Fixpoint pasted (its : list (nat * Trigger)) (time : Q)
  : exc (list (nat * Image)) :=
  match its with
  | [] => ret []
  | (i, trigger) :: rest =>
      anim <- create_animation_overlay trigger time ;;
      tl <- pasted rest time ;;
      match anim with
      | Some img => ret ((i, img) :: tl)
      | None => ret tl
      end
  end.

Definition apply_animations_to_frame (triggers : list Trigger) (time : Q)
  : exc (list (nat * Image)) :=
  pasted (enumerate triggers) time.

End Semantic.

(** ** avatar_renderer.py *)

Module Avatar.

Local Open Scope string_scope.
Local Open Scope Q_scope.
Local Open Scope py_scope.

(** A segment [dict] of the speech bubble. *)
Record Segment : Type := mkSegment {
  text : string;
  start : Q;
  duration : Q
}.

(** The segments substituted for a missing narration. *)
Definition default_segments : list Segment :=
  [ mkSegment "Hi! I'm your AI assistant! 👋" 0 2;
    mkSegment "Let me explain this code step by step! 💻" 2 2;
    mkSegment "This is really interesting code! 🤔" 4 2;
    mkSegment "Let me break it down for you! ✨" 6 2;
    mkSegment "That's how it works! 🎉" 8 2 ].

(** The loop of [_split_narration_into_segments] over
    [range(0, total_words, words_per_segment)]. *)
Fixpoint split_loop (ws : list string) (words_per_second : Q)
         (words_per_segment : nat) (dur : Q) (idx : list nat)
         (segments : list Segment) (current_time : Q)
  : exc (list Segment) :=
  match idx with
  | [] => ret segments
  | i :: rest =>
      let segment_words := slice ws i (i + words_per_segment) in
      let segment_text := join segment_words in
      let segment_word_count := List.length segment_words in
      actual_duration <- fdiv (of_nat segment_word_count) words_per_second ;;
      let segments' :=
        (segments ++ [mkSegment segment_text current_time actual_duration])%list in
      let current_time' := current_time + actual_duration in
      if current_time' >=? dur then ret segments'
      else split_loop ws words_per_second words_per_segment dur rest
             segments' current_time'
  end.

(** The last statement: the final segment is cut at [duration]. *)
Definition adjust_last (segments : list Segment) (dur : Q)
  : list Segment :=
  match rev segments with
  | [] => segments
  | l :: before =>
      if start l + duration l >? dur
      then (rev before ++ [mkSegment (text l) (start l) (dur - start l)])%list
      else segments
  end.

(** [_split_narration_into_segments]. The float literal [1.2] is the
    rational 6/5. *)
Definition _split_narration_into_segments (narration_text : string)
           (dur : Q) : exc (list Segment) :=
  if negb (truthy_str narration_text) then ret default_segments
  else
    let ws := split narration_text in
    let total_words := List.length ws in
    estimated_duration <- fdiv (of_nat total_words) (5 # 2) ;;
    words_per_second <-
      (if Qabs (estimated_duration - dur) >? 2
       then fdiv (of_nat total_words) dur
       else ret (5 # 2)) ;;
    let segment_duration := 6 # 5 in
    let words_per_segment :=
      Z.to_nat (Z.max 2 (int (words_per_second * segment_duration))) in
    segments <- split_loop ws words_per_second words_per_segment dur
                  (range_step total_words words_per_segment) [] 0 ;;
    ret (adjust_last segments dur).

(** [_create_avatar_frames]. A frame is the pair of the [progress] and
    the [time] that [_create_avatar_frame] draws it for; [i / (n - 1)]
    on two [int] is a float division. *)
Definition _create_avatar_frames (total_frames : Z) (dur : Q)
           (narration_text : string) : exc (list (Q * Q)) :=
  speech_segments <- _split_narration_into_segments narration_text dur ;;
  mapM (fun i =>
          progress <- fdiv (of_nat i) (inject_Z (total_frames - 1)) ;;
          let time := progress * dur in
          ret (progress, time))
       (seq 0 (Z.to_nat total_frames)).

(** The clock of [create_animated_video]: the frames of
    [_create_avatar_frames], each with the [time = i * frame_duration]
    at which the semantic animations are applied to it. [fps] is
    [self.fps], [dur] the duration of the audio. *)
Definition create_animated_video (fps : Z) (dur : Q)
           (narration_text : string) : exc (list ((Q * Q) * Q)) :=
  let total_frames := Z.min 60 (int (dur * inject_Z fps)) in
  frame_duration <- fdiv dur (inject_Z total_frames) ;;
  frames <- _create_avatar_frames total_frames dur narration_text ;;
  ret (map (fun iframe : nat * (Q * Q) =>
              (snd iframe, of_nat (fst iframe) * frame_duration))
           (combine (seq 0 (List.length frames)) frames)).

End Avatar.

(** ** Vocabulary of the properties *)

Module Vocabulary.

Import Typewriter.

Local Open Scope Q_scope.
Local Open Scope py_scope.

(** The words of the closed lines followed by the words of the open
    line. *)
Definition seen (st : SegState) : list WordTiming :=
  List.concat (map words (lines st)) ++ current_line_words st.

(** No closed line is empty. *)
Definition nonempty_lines (st : SegState) : Prop :=
  Forall (fun l => words l <> []) (lines st).

(** Word timings that follow one another without a gap, the first one
    starting at [t]. *)
Fixpoint contiguous_from (t : Q) (wts : list WordTiming) : Prop :=
  match wts with
  | [] => True
  | w :: rest => start_time w == t /\ contiguous_from (end_time w) rest
  end.

(** The end of the last word of [wts], or [t] when there is none. *)
Definition last_end (t : Q) (wts : list WordTiming) : Q :=
  fold_left (fun _ w => end_time w) wts t.

(** A line that starts with its first word and ends with its last. *)
Definition spans_its_words (l : LineData) : Prop :=
  match words l with
  | [] => False
  | w0 :: _ =>
      line_start_time l == start_time w0 /\
      line_end_time l == end_time (last (words l) w0)
  end.

(** The invariant of the loop of [organize_text_into_lines] on
    contiguous timings; [rest] are the words still to come. *)
Definition seg_inv (st : SegState) (rest : list WordTiming) : Prop :=
  contiguous_from (current_line_start st) (current_line_words st ++ rest) /\
  Forall spans_its_words (lines st).

(** The number of characters of a list of words. *)
Definition total_chars (ws : list string) : nat :=
  fold_right (fun w n => (String.length w + n)%nat) 0%nat ws.

(** One char position per character. *)
Definition one_position_per_char (w : WordTiming) : Prop :=
  List.length (char_positions w) = String.length (word w).

(** A line is on screen at [t] from [fade_duration] before its start
    until [fade_duration] after its end, the last instant excluded. *)
Definition visible_at (r : Renderer) (t : Q) (l : LineData) : bool :=
  (t >=? line_start_time l - fade_duration r) &&
  ((t <? line_start_time l) || (t <? line_end_time l + fade_duration r)).

(** The ramp of the fade: up before the start, 1 on the line, down
    after the end. *)
Definition fade_value (r : Renderer) (t : Q) (l : LineData) : Q :=
  if t <? line_start_time l
  then (t - (line_start_time l - fade_duration r)) / fade_duration r
  else if t >? line_end_time l
       then 1 - (t - line_end_time l) / fade_duration r
       else 1.

(** The lines on screen at [t], each with its fade, in the order of the
    list. *)
Definition on_screen (r : Renderer) (t : Q) (ls : list LineData)
  : list (LineData * Q) :=
  map (fun l => (l, fade_value r t l)) (filter (visible_at r t) ls).

(** The number of lines after which the loop of
    [get_visible_lines_at_time] breaks. *)
Definition line_cap (r : Renderer) : nat := Nat.max 1 (max_lines r).

(** What a fade progress [p] of line [l] at [t] has to be. *)
Definition fade_shape (r : Renderer) (t : Q) (l : LineData) (p : Q) : Prop :=
  (0 <= p /\ p <= 1) /\
  (t < line_start_time l ->
   p == (t - (line_start_time l - fade_duration r)) / fade_duration r) /\
  (line_start_time l <= t -> t <= line_end_time l -> p == 1) /\
  (line_start_time l <= t -> line_end_time l < t ->
   p == 1 - (t - line_end_time l) / fade_duration r /\ 0 < p).

(** The last [n] elements of a list. *)
Definition lastn {A : Type} (n : nat) (l : list A) : list A :=
  skipn (List.length l - n) l.

(** No more char positions than characters. *)
Definition positions_fit (w : WordTiming) : Prop :=
  (List.length (char_positions w) <= String.length (word w))%nat.

(** [typed_chars] at the end of the loop of [get_typing_progress]. *)
Definition typed_chars (time : Q) (ws : list WordTiming) (acc : nat) : nat :=
  fold_left (fun acc w => (acc + word_typed time w)%nat) ws acc.

(** A kind of the table has a keyword in the segment. *)
Definition kind_matches (segment_text : string)
           (entry : string * Semantic.AnimData) : bool :=
  match Semantic.first_keyword segment_text (Semantic.keywords (snd entry)) with
  | Some _ => true
  | None => false
  end.

(** The names that [create_animation_overlay] dispatches on: the
    ['animation'] fields of the table. *)
Definition animation_names (a : Semantic.Animator) : list string :=
  map (fun entry => Semantic.animation (snd entry))
      (Semantic.animation_mappings a).

(** [t] is in the window of the trigger. *)
Definition in_window (tr : Semantic.Trigger) (t : Q) : Prop :=
  Semantic.start_time tr <= t /\
  t <= Semantic.start_time tr + Semantic.duration tr.

(** Lines that follow one another in time without a gap, the first one
    starting at [t]. *)
Fixpoint tiles_from (t : Q) (ls : list LineData) : Prop :=
  match ls with
  | [] => True
  | l :: rest => line_start_time l = t /\ tiles_from (line_end_time l) rest
  end.

(** The end of the last line of [ls], or [t] when there is none. *)
Definition lines_end (t : Q) (ls : list LineData) : Q :=
  fold_left (fun _ l => line_end_time l) ls t.

(** A line within the character budget, or made of one word. *)
Definition within_budget (r : Renderer) (l : LineData) : Prop :=
  (String.length (text l) <= max_chars_per_line r)%nat \/
  List.length (words l) = 1%nat.

(** The text of a line is its words joined by blanks, and [max_chars]
    is the length of the text. *)
Definition text_of_words (l : LineData) : Prop :=
  text l = join (map word (words l)) /\
  max_chars l = String.length (text l).

(** A word timing whose word is not the empty string. *)
Definition has_word (w : WordTiming) : Prop := truthy_str (word w) = true.

(** The invariant of the loop of [organize_text_into_lines] on the texts. *)
Definition text_inv (st : SegState) : Prop :=
  Forall text_of_words (lines st) /\
  Forall has_word (current_line_words st) /\
  current_line_text st = join (map word (current_line_words st)).

(** Its invariant on the budget. *)
Definition budget_inv (r : Renderer) (st : SegState) : Prop :=
  Forall (within_budget r) (lines st) /\
  ((String.length (current_line_text st) <= max_chars_per_line r)%nat \/
   (List.length (current_line_words st) <= 1)%nat).

(** Its invariant on the times of the lines. *)
Definition tiles_inv (st : SegState) : Prop :=
  tiles_from 0 (lines st) /\ lines_end 0 (lines st) = current_line_start st.

(** The line [l] cannot take the first word of [next]: with it the text
    would exceed the budget. *)
Definition overflows (r : Renderer) (l : LineData) (next : list WordTiming)
  : Prop :=
  match next with
  | [] => False
  | w :: _ =>
      (max_chars_per_line r
       < String.length
           (if truthy_str (text l)
            then (text l ++ " " ++ word w)%string
            else word w))%nat
  end.

(** Every line of [ls] overflows with the first word of the line after
    it, the last one with the first word of [next]. *)
Fixpoint greedy_to (r : Renderer) (ls : list LineData)
         (next : list WordTiming) : Prop :=
  match ls with
  | [] => True
  | l :: rest =>
      overflows r l (match rest with [] => next | l' :: _ => words l' end) /\
      greedy_to r rest next
  end.

(** Every line but the last overflows with the first word of the line
    after it. *)
Fixpoint greedy_lines (r : Renderer) (ls : list LineData) : Prop :=
  match ls with
  | [] => True
  | l :: rest =>
      match rest with
      | [] => True
      | l' :: _ => overflows r l (words l')
      end /\ greedy_lines r rest
  end.

(** The invariant of the loop of [organize_text_into_lines] on the
    packing. *)
Definition greedy_inv (r : Renderer) (st : SegState) : Prop :=
  greedy_to r (lines st) (current_line_words st) /\
  (current_line_words st = [] -> lines st = []).

(** The word is being spoken at [t]. *)
Definition spoken_at (t : Q) (w : WordTiming) : Prop :=
  start_time w <= t /\ t <= end_time w.

(** A word as the estimator times it: its duration is its share of
    [avg], and its char positions divide it evenly. *)
Definition evenly_timed (avg : Q) (w : WordTiming) : Prop :=
  end_time w
  = start_time w + avg * (of_nat (String.length (word w)) / 5) /\
  char_positions w
  = map (fun i =>
           start_time w
           + (end_time w - start_time w) * of_nat i
             / of_nat (String.length (word w)))
        (seq 0 (String.length (word w))).

(** The char positions of [w] are in its interval. *)
Definition positions_inside (w : WordTiming) : Prop :=
  Forall (fun p => start_time w <= p /\ p <= end_time w) (char_positions w).

(** Segments that follow one another without a gap, the first one
    starting at [t]. *)
Fixpoint segments_chain (t : Q) (segs : list Avatar.Segment) : Prop :=
  match segs with
  | [] => True
  | s :: rest =>
      Avatar.start s == t /\
      segments_chain (Avatar.start s + Avatar.duration s) rest
  end.

(** The end of the last segment of [segs], or [t] when there is none. *)
Definition segments_end (t : Q) (segs : list Avatar.Segment) : Q :=
  fold_left (fun _ s => Avatar.start s + Avatar.duration s) segs t.

(** The segment ends before [dur]. *)
Definition ends_before (dur : Q) (s : Avatar.Segment) : Prop :=
  Avatar.start s + Avatar.duration s < dur.

(** The segment ends at [dur] at the latest. *)
Definition ends_by (dur : Q) (s : Avatar.Segment) : Prop :=
  Avatar.start s + Avatar.duration s <= dur.

(** The invariant of the loop of [_split_narration_into_segments]. *)
Definition split_inv (dur : Q) (segs : list Avatar.Segment) (ct : Q)
  : Prop :=
  segments_chain 0 segs /\ segments_end 0 segs == ct /\
  Forall (ends_before dur) segs.

(** The text of the group of [k] words that starts at the word [i]. *)
Definition group_text (ws : list string) (k i : nat) : string :=
  join (slice ws i (i + k)).

(** The frame [i] of [n] frames over [dur]: its progress is [i / (n - 1)]
    and its time is that share of [dur]. *)
Definition frame_at (n : Z) (dur : Q) (i : nat) : Q * Q :=
  (of_nat i / inject_Z (n - 1), of_nat i / inject_Z (n - 1) * dur).

(** The number of frames of [create_animated_video]. *)
Definition frame_count (fps : Z) (dur : Q) : Z :=
  Z.min 60 (int (dur * inject_Z fps)).

End Vocabulary.

Import Vocabulary.

(** * Properties *)

(** ** Comparisons and division *)

Section Comparisons.

Local Open Scope Q_scope.

Lemma geb_true (a b : Q) : geb a b = true <-> b <= a.
Proof. unfold geb. apply Qle_bool_iff. Qed.

Lemma geb_false (a b : Q) : geb a b = false <-> a < b.
Proof.
  unfold geb. rewrite <- not_true_iff_false, Qle_bool_iff.
  split; [apply Qnot_le_lt | apply Qlt_not_le].
Qed.

Lemma leb_true (a b : Q) : leb a b = true <-> a <= b.
Proof. unfold leb. apply Qle_bool_iff. Qed.

Lemma leb_false (a b : Q) : leb a b = false <-> b < a.
Proof.
  unfold leb. rewrite <- not_true_iff_false, Qle_bool_iff.
  split; [apply Qnot_le_lt | apply Qlt_not_le].
Qed.

Lemma ltb_true (a b : Q) : ltb a b = true <-> a < b.
Proof. unfold ltb. rewrite negb_true_iff. apply (geb_false a b). Qed.

Lemma ltb_false (a b : Q) : ltb a b = false <-> b <= a.
Proof. unfold ltb. rewrite negb_false_iff. apply (geb_true a b). Qed.

Lemma gtb_true (a b : Q) : gtb a b = true <-> b < a.
Proof. unfold gtb. rewrite negb_true_iff. apply (leb_false a b). Qed.

Lemma gtb_false (a b : Q) : gtb a b = false <-> a <= b.
Proof. unfold gtb. rewrite negb_false_iff. apply (leb_true a b). Qed.

Lemma fdiv_ok (a b : Q) : ~ b == 0 -> fdiv a b = Ok (a / b).
Proof.
  intros Hb. unfold fdiv.
  destruct (Qeq_bool b 0) eqn:E; [|reflexivity].
  apply Qeq_bool_iff in E. contradiction.
Qed.

Lemma fdiv_zero (a b : Q) : b == 0 -> fdiv a b = Raise ZeroDivisionError.
Proof.
  intros Hb. unfold fdiv. apply Qeq_bool_iff in Hb. now rewrite Hb.
Qed.

Lemma of_nat_nonzero (n : nat) : n <> 0%nat -> ~ of_nat n == 0.
Proof.
  intros Hn H. unfold of_nat, Qeq in H. simpl in H. lia.
Qed.

Lemma of_nat_add (n m : nat) : of_nat (n + m) == of_nat n + of_nat m.
Proof.
  unfold of_nat. rewrite Nat2Z.inj_add, inject_Z_plus. reflexivity.
Qed.

End Comparisons.

(** ** The segmenter: [organize_text_into_lines] *)

Section Segmenter.

Import Typewriter.

Variable r : Renderer.

Lemma seen_step (st : SegState) (wt : WordTiming) :
  seen (seg_step r st wt) = seen st ++ [wt].
Proof.
  unfold seen, seg_step.
  destruct (_ && _); simpl.
  - rewrite map_app, List.concat_app. simpl.
    now rewrite app_nil_r, <- app_assoc.
  - now rewrite app_assoc.
Qed.

Lemma seen_fold (wts : list WordTiming) (st : SegState) :
  seen (fold_left (seg_step r) wts st) = seen st ++ wts.
Proof.
  revert st. induction wts as [|wt wts IH]; intros st; simpl.
  - now rewrite app_nil_r.
  - rewrite IH, seen_step, <- app_assoc. reflexivity.
Qed.

Lemma organize_words (wts : list WordTiming) :
  List.concat (map words (organize_text_into_lines r wts)) = wts.
Proof.
  unfold organize_text_into_lines.
  pose proof (seen_fold wts seg_init) as H. unfold seen in H. simpl in H.
  destruct (fold_left (seg_step r) wts seg_init) as [ls cw ct cs].
  simpl in *. destruct cw as [|w cw]; simpl.
  - now rewrite app_nil_r in H.
  - rewrite map_app, List.concat_app. simpl. now rewrite app_nil_r.
Qed.

Lemma nonempty_step (st : SegState) (wt : WordTiming) :
  nonempty_lines st -> nonempty_lines (seg_step r st wt).
Proof.
  unfold nonempty_lines, seg_step. intros H.
  destruct (Nat.ltb _ _); simpl; [|assumption].
  destruct (current_line_words st) eqn:E; simpl; [assumption|].
  apply Forall_app. split; [assumption|].
  constructor; [simpl; congruence | constructor].
Qed.

Lemma nonempty_fold (wts : list WordTiming) (st : SegState) :
  nonempty_lines st -> nonempty_lines (fold_left (seg_step r) wts st).
Proof.
  revert st. induction wts as [|wt wts IH]; intros st H; simpl; auto.
  apply IH, nonempty_step, H.
Qed.

Lemma organize_nonempty (wts : list WordTiming) :
  Forall (fun l => words l <> []) (organize_text_into_lines r wts).
Proof.
  unfold organize_text_into_lines.
  pose proof (nonempty_fold wts (st := seg_init) (Forall_nil _)) as H.
  unfold nonempty_lines in H.
  destruct (fold_left (seg_step r) wts seg_init) as [ls cw ct cs].
  simpl in *. destruct cw as [|w cw]; simpl; [assumption|].
  apply Forall_app. split; [assumption|].
  constructor; [simpl; congruence | constructor].
Qed.

End Segmenter.

(** C2. For every sequence of word timings, the words of the lines of
  [organize_text_into_lines], concatenated in the order of the lines,
  are the input sequence itself: every word is in exactly one line, at
  its own place. *)
Theorem segmenter_partition :
forall (r : Typewriter.Renderer) (wts : list Typewriter.WordTiming),
  List.concat (map Typewriter.words (Typewriter.organize_text_into_lines r wts))
  = wts.
Proof. intros r wts. apply organize_words. Qed.

(** ** The times of the lines *)

Section SegmenterTimes.

Import Typewriter.

Local Open Scope Q_scope.

Variable r : Renderer.

Lemma last_end_app (t : Q) (a b : list WordTiming) :
  last_end t (a ++ b) = last_end (last_end t a) b.
Proof. unfold last_end. apply fold_left_app. Qed.

Lemma last_end_snoc (t : Q) (a : list WordTiming) (w : WordTiming) :
  last_end t (a ++ [w]) = end_time w.
Proof. now rewrite last_end_app. Qed.

Lemma last_end_last (t : Q) (a : list WordTiming) (d : WordTiming) :
  a <> [] -> last_end t a = end_time (last a d).
Proof.
  intros H. destruct (exists_last H) as [a' [w ->]].
  now rewrite last_end_snoc, last_last.
Qed.

Lemma contiguous_app (t : Q) (a b : list WordTiming) :
  contiguous_from t (a ++ b) <->
  contiguous_from t a /\ contiguous_from (last_end t a) b.
Proof.
  revert t. induction a as [|w a IH]; intros t; simpl.
  - unfold last_end. simpl. tauto.
  - rewrite IH. unfold last_end. simpl. tauto.
Qed.

Lemma seg_inv_step (st : SegState) (wt : WordTiming) (rest : list WordTiming) :
  seg_inv st (wt :: rest) -> seg_inv (seg_step r st wt) rest.
Proof.
  unfold seg_inv, seg_step. intros [Hc Hl].
  destruct (Nat.ltb _ _); simpl.
  2: { split; [now rewrite <- app_assoc | assumption]. }
  destruct (current_line_words st) as [|w0 cw] eqn:E; simpl.
  - split; [|assumption]. simpl in Hc. exact Hc.
  - apply contiguous_app in Hc. destruct Hc as [H1 H2].
    simpl in H1. cbn [contiguous_from] in H2.
    destruct H1 as [H1 _]. destruct H2 as [H2 H3].
    split; [split; [reflexivity | exact H3]|].
    apply Forall_app. split; [assumption|].
    constructor; [|constructor].
    unfold spans_its_words. cbn [words line_start_time line_end_time].
    split; [symmetry; exact H1|].
    rewrite H2. rewrite (last_end_last _ w0); [reflexivity | discriminate].
Qed.

Lemma seg_inv_fold (wts rest : list WordTiming) (st : SegState) :
  seg_inv st (wts ++ rest) -> seg_inv (fold_left (seg_step r) wts st) rest.
Proof.
  revert st. induction wts as [|wt wts IH]; intros st H; simpl; [exact H|].
  apply IH, seg_inv_step, H.
Qed.

(** After a word was read the open line is not empty. *)
Lemma current_nonempty (wts : list WordTiming) (st : SegState) :
  wts <> [] -> current_line_words (fold_left (seg_step r) wts st) <> [].
Proof.
  intros H. destruct (exists_last H) as [a [w ->]].
  rewrite fold_left_app. simpl. unfold seg_step.
  destruct (_ && _); simpl; [discriminate|].
  destruct (current_line_words _); discriminate.
Qed.

(** The shape of the result: the closed lines, then the open line, which
    ends with the last word of the input. *)
Lemma organize_final (a : list WordTiming) (w : WordTiming) :
  exists ls l,
    organize_text_into_lines r (a ++ [w]) = ls ++ [l] /\
    line_end_time l = end_time w /\
    words l = current_line_words (fold_left (seg_step r) (a ++ [w]) seg_init) /\
    line_start_time l =
      current_line_start (fold_left (seg_step r) (a ++ [w]) seg_init) /\
    ls = lines (fold_left (seg_step r) (a ++ [w]) seg_init).
Proof.
  unfold organize_text_into_lines.
  assert (Hne : a ++ [w] <> []) by (destruct a; discriminate).
  pose proof (current_nonempty seg_init Hne) as Hc.
  destruct (fold_left (seg_step r) (a ++ [w]) seg_init) as [ls cw ct cs].
  simpl in *. destruct cw as [|w0 cw]; [congruence|]. simpl.
  eexists. eexists. split; [reflexivity|].
  simpl. rewrite rev_app_distr. simpl. repeat split; reflexivity.
Qed.

Lemma organize_spans (wts : list WordTiming) :
  contiguous_from 0 wts ->
  Forall spans_its_words (organize_text_into_lines r wts).
Proof.
  intros Hc.
  destruct wts as [|w0 wts0] eqn:Ew.
  { unfold organize_text_into_lines. simpl. constructor. }
  rewrite <- Ew in *.
  assert (Hne : wts <> []) by (rewrite Ew; discriminate).
  destruct (exists_last Hne) as [a [w Ea]].
  destruct (organize_final a w) as (ls & l & Ho & He & Hw & Hs & Hl).
  rewrite <- Ea in Ho, Hw, Hs, Hl. rewrite Ho.
  assert (Hinv : seg_inv (fold_left (seg_step r) wts seg_init) []).
  { apply seg_inv_fold. rewrite app_nil_r.
    split; [exact Hc | constructor]. }
  destruct Hinv as [Hcont Hlines].
  pose proof (seen_fold r wts seg_init) as Hseen.
  unfold seen in Hseen. simpl in Hseen.
  pose proof (current_nonempty seg_init Hne) as Hcur.
  rewrite <- Hw in Hcont, Hseen, Hcur. rewrite <- Hs in Hcont.
  rewrite <- Hl in Hlines, Hseen.
  apply Forall_app. split; [exact Hlines|].
  constructor; [|constructor].
  unfold spans_its_words.
  destruct (words l) as [|v0 vs] eqn:Ev; [congruence|].
  rewrite app_nil_r in Hcont. simpl in Hcont. destruct Hcont as [H1 _].
  split; [symmetry; exact H1|].
  rewrite He.
  assert (Hlast : last (v0 :: vs) v0 = w).
  { assert (Hvne : v0 :: vs <> []) by discriminate.
    destruct (exists_last Hvne) as [b [u Eb]].
    rewrite Eb in Hseen |- *. rewrite last_last.
    rewrite Ea, app_assoc in Hseen.
    apply app_inj_tail in Hseen. apply Hseen. }
  rewrite Hlast. reflexivity.
Qed.

End SegmenterTimes.

(** C8, as the code has it. For word timings that are contiguous from
    zero (the first word starts at 0 and every next word starts where the
    previous one ends, which is what [_estimate_word_timings] builds),
    every line of [organize_text_into_lines] starts at the start of its
    first word and ends at the end of its last word. *)
Theorem segmenter_line_times :
  forall (r : Typewriter.Renderer) (wts : list Typewriter.WordTiming)
         (l : Typewriter.LineData),
    contiguous_from 0 wts ->
    In l (Typewriter.organize_text_into_lines r wts) ->
    spans_its_words l.
Proof.
  intros r wts l Hc Hin.
  pose proof (organize_spans r wts Hc) as H.
  rewrite Forall_forall in H. apply H, Hin.
Qed.

Lemma segmenter_line_times_witness :
  let w1 := Typewriter.mkWordTiming "Hello" 0 1 [] in
  let w2 := Typewriter.mkWordTiming "world" 1 2 [] in
  spans_its_words
    (Typewriter.mkLineData [w1; w2] 0 2 "Hello world" 11).
Proof.
  intros w1 w2.
  apply (@segmenter_line_times Typewriter.default_renderer [w1; w2]).
  - simpl. repeat split; reflexivity.
  - simpl. left. reflexivity.
Defined.

(** C8 as stated fails: a first word that starts after 0 is on a line
    that starts at 0. *)
Lemma segmenter_line_times_counterexample :
  ~ (forall (r : Typewriter.Renderer) (wts : list Typewriter.WordTiming)
            (l : Typewriter.LineData),
        In l (Typewriter.organize_text_into_lines r wts) ->
        spans_its_words l).
Proof.
  intros H.
  specialize (H Typewriter.default_renderer
                [Typewriter.mkWordTiming "a" 1 2 [1%Q]] _ (or_introl eq_refl)).
  unfold spans_its_words in H. simpl in H. destruct H as [H _].
  discriminate H.
Qed.

(** ** The estimator: [_estimate_word_timings] *)

Section Estimator.

Import Typewriter.

Local Open Scope Q_scope.

Lemma five_nonzero : ~ 5 == 0.
Proof. intros H. discriminate H. Qed.

Lemma mapM_ok (A B : Type) (f : A -> exc B) (xs : list A) :
  (forall x, In x xs -> exists y, f x = Ok y) ->
  exists ys, mapM f xs = Ok ys /\ List.length ys = List.length xs.
Proof.
  induction xs as [|x xs IH]; intros H; simpl.
  - exists []. split; reflexivity.
  - destruct (H x (or_introl eq_refl)) as [y Hy].
    destruct IH as [ys [Hys Hl]].
    { intros x' Hx'. apply H. right. exact Hx'. }
    rewrite Hy, Hys. simpl. exists (y :: ys).
    split; [reflexivity | simpl; now rewrite Hl].
Qed.

(** [_estimate_char_timings] never raises and gives one position per
    character. *)
Lemma char_timings_ok (w : string) (s e : Q) :
  exists cps,
    _estimate_char_timings w s e = Ok cps /\
    List.length cps = String.length w.
Proof.
  unfold _estimate_char_timings.
  destruct (Nat.eqb (String.length w) 0) eqn:E.
  - apply Nat.eqb_eq in E. exists []. split; [reflexivity | now rewrite E].
  - apply Nat.eqb_neq in E.
    destruct (@mapM_ok nat Q
                (fun i => bind (fdiv ((e - s) * of_nat i)
                                     (of_nat (String.length w)))
                               (fun q => ret (s + q)))
                (seq 0 (String.length w))) as [ys [Hys Hl]].
    { intros i _. rewrite fdiv_ok by (apply of_nat_nonzero, E).
      simpl. eexists. reflexivity. }
    exists ys. split; [exact Hys | now rewrite Hl, length_seq].
Qed.

Lemma estimate_loop_ok (avg : Q) (ws : list string) (t : Q) :
  exists wts,
    estimate_loop avg ws t = Ok wts /\
    map word wts = ws /\
    contiguous_from t wts /\
    Forall one_position_per_char wts /\
    last_end t wts == t + avg * (of_nat (total_chars ws) / 5).
Proof.
  revert t. induction ws as [|w ws IH]; intros t.
  - exists []. simpl. unfold last_end. simpl.
    repeat split; try constructor.
    unfold total_chars, of_nat. simpl. field.
  - cbn [estimate_loop]. rewrite (fdiv_ok _ five_nonzero).
    cbn [bind].
    destruct (char_timings_ok w t (t + avg * (of_nat (String.length w) / 5)))
      as [cps [Hcps Hlen]].
    rewrite Hcps. cbn [bind].
    destruct (IH (t + avg * (of_nat (String.length w) / 5)))
      as (tl & Htl & Hmap & Hcont & Hpos & Hend).
    rewrite Htl. cbn [bind ret].
    eexists. split; [reflexivity|].
    split; [simpl; now rewrite Hmap|].
    split; [simpl; split; [reflexivity | exact Hcont]|].
    split; [constructor; [exact Hlen | exact Hpos]|].
    unfold last_end in *. cbn [fold_left end_time]. rewrite Hend.
    change (total_chars (w :: ws))
      with (String.length w + total_chars ws)%nat.
    rewrite of_nat_add. field.
Qed.

Lemma estimate_ok (txt : string) (d : Q) :
  exists wts,
    _estimate_word_timings txt d = Ok wts /\
    map word wts = split txt /\
    contiguous_from 0 wts /\
    Forall one_position_per_char wts /\
    (split txt <> [] ->
     last_end 0 wts ==
     d * of_nat (total_chars (split txt))
     / (5 * of_nat (List.length (split txt)))).
Proof.
  unfold _estimate_word_timings.
  destruct (split txt) as [|w ws] eqn:E.
  - exists []. simpl. repeat split; try constructor. congruence.
  - cbn [truthy_list negb].
    assert (Hn : ~ of_nat (List.length (w :: ws)) == 0)
      by (apply of_nat_nonzero; discriminate).
    rewrite (fdiv_ok _ Hn). cbn [bind].
    destruct (estimate_loop_ok (d / of_nat (List.length (w :: ws))) (w :: ws) 0)
      as (wts & Hw & Hmap & Hcont & Hpos & Hend).
    exists wts. repeat split; try assumption.
    intros _. rewrite Hend. field. exact Hn.
Qed.

End Estimator.

(** C10. For every narration text and duration, [_estimate_word_timings]
    returns one timing per word of the text, the first one starting at 0
    and every next one starting exactly where the previous one ends. *)
Theorem estimate_contiguous :
  forall (txt : string) (d : Q),
    exists wts,
      Typewriter._estimate_word_timings txt d = Ok wts /\
      map Typewriter.word wts = split txt /\
      contiguous_from 0 wts.
Proof.
  intros txt d.
  destruct (estimate_ok txt d) as (wts & H1 & H2 & H3 & _).
  exists wts. repeat split; assumption.
Qed.

(** C5, as the code has it. For every narration text that has a word
    and every duration, the last line of [organize_text_into_lines] ends
    where the last estimated word ends, and, in exact arithmetic, that
    end is [duration * characters / (5 * words)], where [characters] is
    the number of characters of all the words: it is the duration when
    the words have five characters on average, and not otherwise. *)
Theorem estimate_final_end :
  forall (r : Typewriter.Renderer) (txt : string) (d : Q),
    split txt <> [] ->
    exists wts wl ls l,
      Typewriter._estimate_word_timings txt d = Ok (wts ++ [wl]) /\
      Typewriter.organize_text_into_lines r (wts ++ [wl]) = ls ++ [l] /\
      Typewriter.line_end_time l = Typewriter.end_time wl /\
      (Typewriter.end_time wl ==
       d * of_nat (total_chars (split txt))
       / (5 * of_nat (List.length (split txt))))%Q.
Proof.
  intros r txt d Hne.
  destruct (estimate_ok txt d) as (wts & H1 & H2 & _ & _ & H5).
  assert (Hw : wts <> []).
  { intros ->. simpl in H2. congruence. }
  destruct (exists_last Hw) as [a [wl ->]].
  destruct (organize_final r a wl) as (ls & l & Ho & He & _).
  exists a, wl, ls, l. repeat split; try assumption.
  rewrite <- (last_end_snoc 0%Q a wl). apply H5, Hne.
Qed.

Lemma estimate_final_end_witness :
  exists wts wl ls l,
    Typewriter._estimate_word_timings "Hello world" 2 = Ok (wts ++ [wl]) /\
    Typewriter.organize_text_into_lines Typewriter.default_renderer
      (wts ++ [wl]) = ls ++ [l] /\
    Typewriter.line_end_time l = Typewriter.end_time wl /\
    (Typewriter.end_time wl ==
     2 * of_nat (total_chars (split "Hello world"))
     / (5 * of_nat (List.length (split "Hello world"))))%Q.
Proof.
  apply (@estimate_final_end Typewriter.default_renderer "Hello world" 2).
  vm_compute. discriminate.
Defined.

(** When the words have five characters on average the estimate ends at
    the duration. *)
Lemma average_five_ends_at_duration (txt : string) (d : Q) :
  split txt <> [] ->
  total_chars (split txt) = (5 * List.length (split txt))%nat ->
  exists wts wl,
    Typewriter._estimate_word_timings txt d = Ok (wts ++ [wl]) /\
    (Typewriter.end_time wl == d)%Q.
Proof.
  intros Hne Hfive.
  destruct (estimate_ok txt d) as (wts & H1 & H2 & _ & _ & H5).
  assert (Hw : wts <> []).
  { intros ->. simpl in H2. congruence. }
  destruct (exists_last Hw) as [a [wl ->]].
  exists a, wl. split; [exact H1|].
  rewrite <- (last_end_snoc 0%Q a wl), (H5 Hne), Hfive.
  assert (Hn : ~ (of_nat (List.length (split txt)) == 0)%Q).
  { apply of_nat_nonzero. destruct (split txt); [congruence | discriminate]. }
  unfold of_nat in *. rewrite Nat2Z.inj_mul, inject_Z_mult.
  change (inject_Z (Z.of_nat 5)) with 5%Q. field. exact Hn.
Qed.

(** C5 as stated fails: the one word of "Hi" ends at 4/5 of a second
    when the audio lasts 2 seconds. *)
Lemma estimate_final_end_counterexample :
  ~ (forall (txt : string) (d : Q) (wts : list Typewriter.WordTiming)
            (wl : Typewriter.WordTiming),
        txt <> EmptyString -> (0 < d)%Q ->
        Typewriter._estimate_word_timings txt d = Ok (wts ++ [wl]) ->
        (Typewriter.end_time wl == d)%Q).
Proof.
  intros H.
  specialize (H "Hi"%string 2%Q []
                (Typewriter.mkWordTiming "Hi" 0 (0 + 2 / 1 * (2 / 5))
                   [(0 + (0 + 2 / 1 * (2 / 5) - 0) * 0 / 2)%Q;
                    (0 + (0 + 2 / 1 * (2 / 5) - 0) * 1 / 2)%Q])).
  assert (E : (0 + 2 / 1 * (2 / 5) == 2)%Q).
  { apply H; [discriminate | reflexivity | reflexivity]. }
  vm_compute in E. discriminate E.
Qed.

(** ** The visible lines: [get_visible_lines_at_time] *)

Section VisibleLines.

Import Typewriter.

Local Open Scope Q_scope.

Variable r : Renderer.
Variable t : Q.
Hypothesis fade_positive : 0 < fade_duration r.

Lemma fade_nonzero : ~ fade_duration r == 0.
Proof. intros H. rewrite H in fade_positive. discriminate fade_positive. Qed.

(** Past the end of a line the progress is positive as long as the
    line is on screen. *)
Lemma trailing_progress (l : LineData) :
  leb (1 - (t - line_end_time l) / fade_duration r) 0
  = negb (ltb t (line_end_time l + fade_duration r)).
Proof.
  destruct (leb _ 0) eqn:E1; destruct (ltb t _) eqn:E2; try reflexivity;
    exfalso.
  - apply leb_true in E1. apply ltb_true in E2.
    assert (H : (t - line_end_time l) / fade_duration r < 1).
    { apply Qlt_shift_div_r; [exact fade_positive | lra]. }
    lra.
  - apply leb_false in E1. apply ltb_false in E2.
    assert (H : 1 <= (t - line_end_time l) / fade_duration r).
    { apply Qle_shift_div_l; [exact fade_positive | lra]. }
    lra.
Qed.

Lemma fade_of_spec (l : LineData) :
  geb t (line_start_time l - fade_duration r) = true ->
  fade_of r l t
  = Ok (if visible_at r t l then Some (fade_value r t l) else None).
Proof.
  intros V. unfold fade_of, visible_at, fade_value. rewrite V.
  cbn [andb].
  destruct (ltb t (line_start_time l)) eqn:E1.
  - rewrite (fdiv_ok _ fade_nonzero). reflexivity.
  - cbn [orb]. destruct (gtb t (line_end_time l)) eqn:E2.
    + rewrite (fdiv_ok _ fade_nonzero). cbn [bind].
      rewrite trailing_progress.
      destruct (ltb t (line_end_time l + fade_duration r)); reflexivity.
    + apply gtb_false in E2.
      assert (E3 : ltb t (line_end_time l + fade_duration r) = true).
      { apply ltb_true. lra. }
      rewrite E3. reflexivity.
Qed.

Lemma not_yet_visible (l : LineData) :
  geb t (line_start_time l - fade_duration r) = false ->
  visible_at r t l = false.
Proof. intros V. unfold visible_at. now rewrite V. Qed.

(** The loop keeps the first [line_cap r] lines on screen. *)
Lemma visible_loop_spec (ls : list LineData) :
  forall acc : list (LineData * Q),
    (List.length acc < line_cap r)%nat ->
    visible_loop r t ls acc
    = Ok (firstn (line_cap r) (acc ++ on_screen r t ls)).
Proof.
  unfold on_screen.
  induction ls as [|l rest IH]; intros acc Hacc; cbn [visible_loop].
  - simpl. rewrite app_nil_r, firstn_all2 by lia. reflexivity.
  - destruct (geb t (line_start_time l - fade_duration r)) eqn:V.
    + rewrite (fade_of_spec l V). cbn [bind filter].
      destruct (visible_at r t l) eqn:VA; [|apply IH, Hacc].
      cbn [map].
      set (x := (l, fade_value r t l)).
      replace (acc ++ x :: map (fun l0 => (l0, fade_value r t l0))
                            (filter (visible_at r t) rest))
        with ((acc ++ [x]) ++ map (fun l0 => (l0, fade_value r t l0))
                                  (filter (visible_at r t) rest))
        by (rewrite <- app_assoc; reflexivity).
      assert (Hlen : List.length (acc ++ [x]) = S (List.length acc))
        by (rewrite length_app; simpl; lia).
      destruct (Nat.leb (max_lines r) (List.length (acc ++ [x]))) eqn:B.
      * apply Nat.leb_le in B.
        assert (Hcap : List.length (acc ++ [x]) = line_cap r)
          by (unfold line_cap in *; lia).
        rewrite firstn_app, Hcap, Nat.sub_diag. simpl.
        rewrite <- Hcap, firstn_all, app_nil_r. reflexivity.
      * apply Nat.leb_gt in B. apply IH. unfold line_cap in *. lia.
    + cbn [filter]. rewrite (not_yet_visible l V). apply IH, Hacc.
Qed.

Lemma get_visible_spec (ls : list LineData) :
  get_visible_lines_at_time r ls t
  = Ok (firstn (line_cap r) (on_screen r t ls)).
Proof.
  unfold get_visible_lines_at_time.
  rewrite visible_loop_spec by (simpl; unfold line_cap; lia).
  reflexivity.
Qed.

(** The fade of a line on screen has the shape of the ramp. *)
Lemma fade_value_shape (l : LineData) :
  visible_at r t l = true -> fade_shape r t l (fade_value r t l).
Proof.
  unfold visible_at, fade_value, fade_shape. intros V.
  apply andb_true_iff in V. destruct V as [V1 V2].
  apply geb_true in V1.
  destruct (ltb t (line_start_time l)) eqn:E1.
  - apply ltb_true in E1.
    assert (H0 : 0 <=
              (t - (line_start_time l - fade_duration r)) / fade_duration r).
    { apply Qle_shift_div_l; [exact fade_positive | lra]. }
    assert (H1 : (t - (line_start_time l - fade_duration r)) / fade_duration r
                 <= 1).
    { apply Qle_shift_div_r; [exact fade_positive | lra]. }
    repeat split; try assumption; try reflexivity; intros; lra.
  - apply ltb_false in E1. cbn [orb] in V2. apply ltb_true in V2.
    destruct (gtb t (line_end_time l)) eqn:E2.
    + apply gtb_true in E2.
      assert (H0 : 0 <= (t - line_end_time l) / fade_duration r).
      { apply Qle_shift_div_l; [exact fade_positive | lra]. }
      assert (H1 : (t - line_end_time l) / fade_duration r < 1).
      { apply Qlt_shift_div_r; [exact fade_positive | lra]. }
      repeat split; try reflexivity; intros; lra.
    + apply gtb_false in E2.
      repeat split; try reflexivity; intros; lra.
Qed.

Lemma on_screen_shape (ls : list LineData) :
  Forall (fun lp => fade_shape r t (fst lp) (snd lp)) (on_screen r t ls).
Proof.
  unfold on_screen. rewrite Forall_forall. intros [l p] Hin.
  apply in_map_iff in Hin. destruct Hin as [l' [Heq Hin]].
  inversion Heq; subst. apply filter_In in Hin. simpl.
  apply fade_value_shape, Hin.
Qed.

Lemma Forall_firstn (A : Type) (P : A -> Prop) (n : nat) (l : list A) :
  Forall P l -> Forall P (firstn n l).
Proof.
  intros H. rewrite Forall_forall in *. intros x Hx.
  apply H. rewrite <- (firstn_skipn n l). apply in_or_app. now left.
Qed.

End VisibleLines.

(** C4, as the code has it. With a positive [fade_duration] and
    [max_lines >= 1], [get_visible_lines_at_time] returns the first
    [max_lines] of the lines that are on screen at [t], in the order of
    the list of lines: at most [max_lines] lines, and when more are on
    screen the later ones are dropped. *)
Theorem visible_lines_cap :
  forall (r : Typewriter.Renderer) (ls : list Typewriter.LineData) (t : Q),
    (0 < Typewriter.fade_duration r)%Q ->
    (1 <= Typewriter.max_lines r)%nat ->
    exists vis,
      Typewriter.get_visible_lines_at_time r ls t = Ok vis /\
      map fst vis
      = firstn (Typewriter.max_lines r) (filter (visible_at r t) ls) /\
      (List.length vis <= Typewriter.max_lines r)%nat.
Proof.
  intros r ls t Hf Hm.
  exists (firstn (line_cap r) (on_screen r t ls)).
  assert (Hcap : line_cap r = Typewriter.max_lines r)
    by (unfold line_cap; lia).
  split; [apply get_visible_spec, Hf|].
  rewrite Hcap. split.
  - unfold on_screen. rewrite <- firstn_map, map_map. simpl.
    now rewrite map_id.
  - apply firstn_le_length.
Qed.

Lemma visible_lines_cap_witness :
  let l := Typewriter.mkLineData [] 0 10 "Hello world" 11 in
  exists vis,
    Typewriter.get_visible_lines_at_time Typewriter.default_renderer
      [l; l] 5 = Ok vis /\
    map fst vis
    = firstn 3 (filter (visible_at Typewriter.default_renderer 5) [l; l]) /\
    (List.length vis <= 3)%nat.
Proof.
  intros l.
  apply (@visible_lines_cap Typewriter.default_renderer [l; l] 5).
  - reflexivity.
  - simpl. lia.
Defined.

(** C4 as stated fails: of four lines on screen at the same instant the
    first three are returned and the newest is dropped, not the
    oldest. *)
Lemma visible_lines_cap_counterexample :
  ~ (forall (ls : list Typewriter.LineData) (t : Q)
            (vis : list (Typewriter.LineData * Q)),
        Typewriter.get_visible_lines_at_time Typewriter.default_renderer ls t
        = Ok vis ->
        map fst vis
        = lastn 3 (filter (visible_at Typewriter.default_renderer t) ls)).
Proof.
  intros H.
  pose (l1 := Typewriter.mkLineData [] 0 10 "one" 3).
  pose (l2 := Typewriter.mkLineData [] 1 10 "two" 3).
  pose (l3 := Typewriter.mkLineData [] 2 10 "three" 5).
  pose (l4 := Typewriter.mkLineData [] 3 10 "four" 4).
  specialize (H [l1; l2; l3; l4] 5%Q [(l1, 1%Q); (l2, 1%Q); (l3, 1%Q)]
                eq_refl).
  vm_compute in H. discriminate H.
Qed.

(** C9. With a positive [fade_duration], for every list of lines and
    every instant, [get_visible_lines_at_time] returns, and every fade
    progress it attaches to a line lies in [0, 1]: it is the ramp from 0
    to 1 over the [fade_duration] before the start of the line, 1 from
    the start to the end, and the ramp from 1 down over the
    [fade_duration] after the end, where it is still positive, so that a
    line whose progress would be 0 or less is not returned. *)
Theorem fade_progress_range :
  forall (r : Typewriter.Renderer) (ls : list Typewriter.LineData) (t : Q),
    (0 < Typewriter.fade_duration r)%Q ->
    exists vis,
      Typewriter.get_visible_lines_at_time r ls t = Ok vis /\
      Forall (fun lp => fade_shape r t (fst lp) (snd lp)) vis.
Proof.
  intros r ls t Hf.
  exists (firstn (line_cap r) (on_screen r t ls)).
  split; [apply get_visible_spec, Hf|].
  apply Forall_firstn, on_screen_shape, Hf.
Qed.

Lemma fade_progress_range_witness :
  let l := Typewriter.mkLineData [] 1 10 "Hello world" 11 in
  exists vis,
    Typewriter.get_visible_lines_at_time Typewriter.default_renderer
      [l] (3 # 4) = Ok vis /\
    Forall (fun lp =>
              fade_shape Typewriter.default_renderer (3 # 4) (fst lp) (snd lp))
           vis.
Proof.
  intros l.
  apply (@fade_progress_range Typewriter.default_renderer [l] (3 # 4)).
  reflexivity.
Defined.

(** With [fade_duration = 0] a line that has ended makes the loop
    raise. *)
Lemma fade_zero_raises :
  Typewriter.get_visible_lines_at_time
    (Typewriter.mkRenderer 3 60 0)
    [Typewriter.mkLineData [] 0 1 "a" 1] 2
  = Raise ZeroDivisionError.
Proof. reflexivity. Qed.

(** ** The typed length: [get_typing_progress] *)

Section TypingProgress.

Import Typewriter.

Local Open Scope Q_scope.

Variables t1 t2 : Q.
Hypothesis t1_le_t2 : t1 <= t2.

Lemma geb_mono (c : Q) : geb t1 c = true -> geb t2 c = true.
Proof. rewrite !geb_true. intros H. lra. Qed.

Lemma count_typed_mono (cps : list Q) :
  (count_typed t1 cps <= count_typed t2 cps)%nat.
Proof.
  induction cps as [|c cps IH]; simpl; [lia|].
  destruct (geb t1 c) eqn:E; [|lia].
  rewrite (geb_mono c E). lia.
Qed.

Lemma count_typed_length (t : Q) (cps : list Q) :
  (count_typed t cps <= List.length cps)%nat.
Proof.
  induction cps as [|c cps IH]; simpl; [lia|].
  destruct (geb t c); lia.
Qed.

Lemma word_typed_mono (w : WordTiming) :
  positions_fit w -> (word_typed t1 w <= word_typed t2 w)%nat.
Proof.
  unfold positions_fit, word_typed. intros Hfit.
  pose proof (count_typed_length t1 (char_positions w)) as Hc.
  pose proof (count_typed_mono (char_positions w)) as Hm.
  destruct (geb t1 (end_time w)) eqn:E1.
  - rewrite (geb_mono _ E1). lia.
  - destruct (geb t2 (end_time w)) eqn:E2.
    + destruct (geb t1 (start_time w)); lia.
    + destruct (geb t1 (start_time w)) eqn:S1.
      * rewrite (geb_mono _ S1). exact Hm.
      * lia.
Qed.

Lemma typed_chars_mono (ws : list WordTiming) :
  Forall positions_fit ws ->
  forall a b : nat,
    (a <= b)%nat -> (typed_chars t1 ws a <= typed_chars t2 ws b)%nat.
Proof.
  unfold typed_chars.
  induction 1 as [|w ws Hw _ IH]; intros a b Hab; simpl; [exact Hab|].
  apply IH. pose proof (word_typed_mono Hw). lia.
Qed.

Lemma typing_progress_mono (line : LineData) :
  Forall positions_fit (words line) ->
  (get_typing_progress line t1 <= get_typing_progress line t2)%nat.
Proof.
  intros Hfit. unfold get_typing_progress.
  destruct (ltb t1 (line_start_time line)) eqn:E1; [lia|].
  apply ltb_false in E1.
  assert (E2 : ltb t2 (line_start_time line) = false)
    by (apply ltb_false; lra).
  rewrite E2.
  pose proof (typed_chars_mono Hfit (Nat.le_refl 0)) as H.
  unfold typed_chars in H. lia.
Qed.

End TypingProgress.

(** For every line none of whose words has more char positions than
    characters (the estimator gives each word one position per
    character) and all instants [t1 <= t2], the typed length at [t1] is
    at most the typed length at [t2]. *)
Theorem typed_length_monotone :
  forall (line : Typewriter.LineData) (t1 t2 : Q),
    Forall positions_fit (Typewriter.words line) ->
    (t1 <= t2)%Q ->
    (Typewriter.get_typing_progress line t1
     <= Typewriter.get_typing_progress line t2)%nat.
Proof.
  intros line t1 t2 Hfit Hle. apply typing_progress_mono; assumption.
Qed.

Lemma typed_length_monotone_witness :
  let hello :=
    Typewriter.mkWordTiming "Hello" 0 1
      [0%Q; (1 # 5)%Q; (2 # 5)%Q; (3 # 5)%Q; (4 # 5)%Q] in
  let world :=
    Typewriter.mkWordTiming "world" 1 2
      [1%Q; (6 # 5)%Q; (7 # 5)%Q; (8 # 5)%Q; (9 # 5)%Q] in
  let line := Typewriter.mkLineData [hello; world] 0 2 "Hello world" 11 in
  (Typewriter.get_typing_progress line (1 # 2)
   <= Typewriter.get_typing_progress line (3 # 2))%nat.
Proof.
  intros hello world line.
  apply (@typed_length_monotone line (1 # 2) (3 # 2)).
  - repeat constructor.
  - discriminate.
Defined.

(** Without that condition the typed length can decrease: on a word
    with three char positions for its two characters it is 3 just before
    the end of the word and 2 at its end. *)
Lemma typed_length_monotone_counterexample :
  ~ (forall (line : Typewriter.LineData) (t1 t2 : Q),
        (t1 <= t2)%Q ->
        (Typewriter.get_typing_progress line t1
         <= Typewriter.get_typing_progress line t2)%nat).
Proof.
  intros H.
  pose (hi := Typewriter.mkWordTiming "Hi" 0 (3 # 5)
                [0%Q; (1 # 5)%Q; (2 # 5)%Q]).
  pose (there := Typewriter.mkWordTiming "there" 1 2
                   [1%Q; (6 # 5)%Q; (7 # 5)%Q; (8 # 5)%Q; (9 # 5)%Q]).
  specialize (H (Typewriter.mkLineData [hi; there] 0 2 "Hi there" 8)
                (1 # 2)%Q (3 # 5)%Q).
  assert (Hle : (1 # 2 <= 3 # 5)%Q) by discriminate.
  specialize (H Hle). vm_compute in H. lia.
Qed.

(** A transcript word with a leading blank gets a char position for the
    blank too. *)
Lemma transcript_word_positions :
  exists w,
    Typewriter.transcript_word " Hi" 0 (3 # 5) = Ok w /\
    Typewriter.word w = "Hi"%string /\
    List.length (Typewriter.char_positions w) = 3%nat /\
    ~ positions_fit w.
Proof.
  eexists. split; [reflexivity|]. split; [reflexivity|].
  split; [reflexivity|]. unfold positions_fit. simpl. lia.
Qed.

(** C1, on the code. The transcript words [" Hi"], from 0 to 0.6 s, and
    [" there"], from 1 to 2 s, are stored stripped, each with the char
    positions of the unstripped word; [organize_text_into_lines] puts
    them on the line "Hi there", and the typed length of that line is 3
    at 0.5 s and 2 at 0.6 s: it decreases. *)
Theorem transcript_typed_length_decreases :
  exists w1 w2 line,
    Typewriter.transcript_word " Hi" 0 (3 # 5) = Ok w1 /\
    Typewriter.transcript_word " there" 1 2 = Ok w2 /\
    Typewriter.organize_text_into_lines Typewriter.default_renderer [w1; w2]
    = [line] /\
    Typewriter.text line = "Hi there"%string /\
    Typewriter.get_typing_progress line (1 # 2) = 3%nat /\
    Typewriter.get_typing_progress line (3 # 5) = 2%nat.
Proof.
  eexists. eexists. eexists.
  split; [reflexivity|]. split; [reflexivity|]. split; [reflexivity|].
  split; [reflexivity|]. split; vm_compute; reflexivity.
Qed.

(** ** Failure of the estimator and the placeholder of the avatar *)

(** C6, as the code has it. [_estimate_word_timings] never raises: for
    every text and every duration it returns one timing per word of the
    text, none when the text has no word. [_split_narration_into_segments]
    substitutes its placeholder when the narration text is empty,
    whatever the duration, and the placeholder has five segments. *)
Theorem estimator_total :
  forall (txt : string) (d : Q),
    (exists wts,
        Typewriter._estimate_word_timings txt d = Ok wts /\
        List.length wts = List.length (split txt)) /\
    Avatar._split_narration_into_segments EmptyString d
    = Ok Avatar.default_segments /\
    List.length Avatar.default_segments = 5%nat.
Proof.
  intros txt d. split; [|split; reflexivity].
  destruct (estimate_ok txt d) as (wts & H1 & H2 & _).
  exists wts. split; [exact H1|].
  rewrite <- H2. now rewrite length_map.
Qed.

(** C6 as stated fails: on the empty text the estimator returns, it does
    not raise. *)
Lemma estimator_total_counterexample :
  ~ (forall (txt : string) (d : Q),
        (exists e, Typewriter._estimate_word_timings txt d = Raise e)
        <-> (txt = EmptyString \/ (d <= 0)%Q)).
Proof.
  intros H.
  destruct (proj2 (H EmptyString 1%Q) (or_introl eq_refl)) as [e He].
  discriminate He.
Qed.

(** Nor does it raise on a duration of zero. *)
Lemma estimator_zero_duration :
  exists w,
    Typewriter._estimate_word_timings "Hi" 0 = Ok [w] /\
    (Typewriter.start_time w == 0)%Q /\ (Typewriter.end_time w == 0)%Q.
Proof.
  eexists. split; [reflexivity|]. split; reflexivity.
Qed.

(** With a narration of more than five words and a duration of zero the
    avatar renderer raises: no placeholder is substituted. *)
Lemma split_narration_zero_duration :
  Avatar._split_narration_into_segments "a b c d e f" 0
  = Raise ZeroDivisionError.
Proof. reflexivity. Qed.

(** ** The triggers: [analyze_narration] *)

Section Triggers.

Import Semantic.

Local Open Scope Q_scope.

(** A segment gets one trigger for every kind of the table that has a
    keyword in it, in the order of the table. *)
Lemma segment_triggers_kinds (d : Q) (txt : string) (s : Q)
      (table : list (string * AnimData)) :
  map type (segment_triggers d txt s table)
  = map fst (filter (kind_matches txt) table).
Proof.
  induction table as [|[k data] table IH]; simpl; [reflexivity|].
  unfold kind_matches at 1. simpl.
  destruct (first_keyword txt (keywords data)); simpl; now rewrite IH.
Qed.

Lemma segment_triggers_in (d : Q) (txt : string) (s : Q)
      (table : list (string * AnimData)) (tr : Trigger) :
  In tr (segment_triggers d txt s table) ->
  In (type tr) (map fst table) /\ duration tr = d /\ start_time tr = s.
Proof.
  induction table as [|[k data] table IH]; simpl; [tauto|].
  destruct (first_keyword txt (keywords data)); simpl.
  - intros [<-|H]; simpl; [tauto|]. destruct (IH H) as (H1 & H2 & H3). tauto.
  - intros H. destruct (IH H) as (H1 & H2 & H3). tauto.
Qed.

Lemma analyze_in (a : Animator) (txt : string) (d : Q)
      (trs : list Trigger) (tr : Trigger) :
  analyze_narration a txt d = Ok trs ->
  In tr trs ->
  In (type tr) (map fst (animation_mappings a)) /\
  duration tr = animation_duration a.
Proof.
  unfold analyze_narration.
  destruct (negb (truthy_str txt)).
  - intros H. inversion H. contradiction.
  - destruct (fdiv d _) as [sd|e]; simpl; [|discriminate].
    intros H Hin. inversion H; subst. clear H.
    apply in_flat_map in Hin. destruct Hin as [iw [_ Hin]].
    apply segment_triggers_in in Hin. tauto.
Qed.

(** [analyze_narration] never raises. *)
Lemma analyze_ok (a : Animator) (txt : string) (d : Q) :
  exists trs, analyze_narration a txt d = Ok trs.
Proof.
  unfold analyze_narration.
  destruct (negb (truthy_str txt)); [eexists; reflexivity|].
  rewrite fdiv_ok; [eexists; reflexivity|].
  apply of_nat_nonzero. lia.
Qed.

(** An overlay is drawn only in the window of its trigger. *)
Lemma overlay_in_window (tr : Trigger) (t : Q) (img : Image) :
  create_animation_overlay tr t = Ok (Some img) -> in_window tr t.
Proof.
  unfold create_animation_overlay, in_window.
  destruct (ltb t (start_time tr)) eqn:E1; [discriminate|].
  destruct (gtb t (start_time tr + duration tr)) eqn:E2; [discriminate|].
  intros _. apply ltb_false in E1. apply gtb_false in E2. tauto.
Qed.

(** For a trigger whose type is one of the names of the dispatch, and
    whose duration is not zero, the overlay is drawn exactly in the
    window. *)
Lemma overlay_of_animation_name (tr : Trigger) (t : Q) :
  In (type tr) (animation_names default_animator) ->
  ~ duration tr == 0 ->
  ((exists img, create_animation_overlay tr t = Ok (Some img))
   <-> in_window tr t).
Proof.
  intros Hname Hd. split.
  - intros [img H]. exact (@overlay_in_window _ _ _ H).
  - intros [H1 H2]. unfold create_animation_overlay.
    apply ltb_false in H1. apply gtb_false in H2. rewrite H1, H2.
    cbn [orb]. rewrite (fdiv_ok _ Hd). cbn [bind].
    unfold animation_names in Hname. simpl in Hname.
    repeat (destruct Hname as [<-|Hname]; [eexists; reflexivity|]).
    contradiction.
Qed.

(** The triggers of [analyze_narration] carry the key of the table, not
    the name of the animation: no overlay is ever drawn for them. *)
Lemma overlay_of_analyzed_trigger (txt : string) (d : Q)
      (trs : list Trigger) (tr : Trigger) (t : Q) :
  analyze_narration default_animator txt d = Ok trs ->
  In tr trs ->
  create_animation_overlay tr t = Ok None.
Proof.
  intros Ha Hin. destruct (@analyze_in _ _ _ _ _ Ha Hin) as [Hk Hd].
  unfold create_animation_overlay.
  destruct (ltb t (start_time tr) || gtb t (start_time tr + duration tr));
    [reflexivity|].
  rewrite Hd. simpl animation_duration.
  rewrite fdiv_ok by discriminate. cbn [bind].
  simpl in Hk.
  repeat (destruct Hk as [<-|Hk]; [reflexivity|]).
  contradiction.
Qed.

End Triggers.

(** C3, on the code. The three words of "call the loop" are one window
    of the narration; [analyze_narration] emits two triggers for it, of
    the kinds [function] and [loop], both at the start of the window:
    the [break] leaves the loop over the keywords of a kind, not the
    loop over the kinds. *)
Theorem analyze_two_triggers_in_one_window :
  exists tr1 tr2,
    Semantic.analyze_narration Semantic.default_animator "call the loop" 2
    = Ok [tr1; tr2] /\
    Semantic.type tr1 = "function"%string /\
    Semantic.keyword tr1 = "call"%string /\
    Semantic.type tr2 = "loop"%string /\
    Semantic.keyword tr2 = "loop"%string /\
    Semantic.text tr1 = "call the loop"%string /\
    Semantic.text tr2 = "call the loop"%string /\
    (Semantic.start_time tr1 == 0)%Q /\ (Semantic.start_time tr2 == 0)%Q.
Proof.
  eexists. eexists. split; [reflexivity|].
  repeat split; reflexivity.
Qed.

(** C7, on the code. The trigger that [analyze_narration] emits for
    "a loop" starts at 0 and lasts 2 seconds; at [t = 1], inside its
    window, [create_animation_overlay] returns no overlay: the trigger
    has the type [loop], the dispatch expects [loop_spin]. *)
Theorem overlay_missing_in_window :
  exists tr,
    Semantic.analyze_narration Semantic.default_animator "a loop" 4
    = Ok [tr] /\
    Semantic.type tr = "loop"%string /\
    in_window tr 1 /\
    Semantic.create_animation_overlay tr 1 = Ok None /\
    Semantic.apply_animations_to_frame [tr] 1 = Ok [].
Proof.
  eexists. split; [reflexivity|].
  split; [reflexivity|].
  split; [split; discriminate|].
  split; reflexivity.
Qed.

(** * Further properties of the code *)

(** ** Strings *)

Section Strings.

Local Open Scope string_scope.

Lemma append_nil_r (s : string) : s ++ "" = s.
Proof. induction s as [|c s IH]; simpl; [reflexivity | now rewrite IH]. Qed.

Lemma append_assoc (a b c : string) : (a ++ b) ++ c = a ++ (b ++ c).
Proof. induction a as [|x a IH]; simpl; [reflexivity | now rewrite IH]. Qed.

Lemma length_append (a b : string) :
  String.length (a ++ b) = (String.length a + String.length b)%nat.
Proof. induction a as [|x a IH]; simpl; [reflexivity | now rewrite IH]. Qed.

Lemma truthy_append (a b : string) :
  truthy_str a = true -> truthy_str (a ++ b) = true.
Proof. destruct a; simpl; [discriminate | reflexivity]. Qed.

Lemma join_cons (w : string) (ws : list string) :
  ws <> [] -> join (w :: ws) = w ++ " " ++ join ws.
Proof. destruct ws; [congruence | reflexivity]. Qed.

Lemma join_snoc (ws : list string) (w : string) :
  ws <> [] -> join (ws ++ [w]) = join ws ++ " " ++ w.
Proof.
  induction ws as [|a ws IH]; intros H; [congruence|].
  destruct ws as [|b ws].
  - reflexivity.
  - change ((a :: b :: ws) ++ [w])%list with (a :: ((b :: ws) ++ [w]))%list.
    rewrite join_cons by (simpl; discriminate).
    rewrite IH by discriminate.
    rewrite (join_cons a (ws := b :: ws)) by discriminate.
    now rewrite !append_assoc.
Qed.

Lemma join_truthy (w : string) (ws : list string) :
  truthy_str w = true -> truthy_str (join (w :: ws)) = true.
Proof.
  intros H. destruct ws; [exact H|].
  rewrite join_cons by discriminate. now apply truthy_append.
Qed.

(** The length of a joined text: the characters of the words and one
    blank between two words. *)
Lemma join_length (ws : list string) :
  ws <> [] ->
  (String.length (join ws) + 1 = total_chars ws + List.length ws)%nat.
Proof.
  induction ws as [|a ws IH]; intros H; [congruence|].
  destruct ws as [|b ws].
  - simpl. lia.
  - rewrite join_cons by discriminate.
    rewrite !length_append.
    assert (IH' := IH ltac:(discriminate)).
    change (total_chars (a :: b :: ws))
      with (String.length a + total_chars (b :: ws))%nat.
    change (String.length " ") with 1%nat.
    change (List.length (a :: b :: ws)) with (S (List.length (b :: ws))).
    lia.
Qed.

(** No word of [split] is empty. *)
Lemma split_from_truthy (s cur : string) :
  Forall (fun w => truthy_str w = true) (split_from cur s).
Proof.
  revert cur. induction s as [|c s IH]; intros cur; simpl.
  - destruct (truthy_str cur) eqn:E; [|constructor].
    constructor; [exact E | constructor].
  - destruct (isspace c); [|apply IH].
    destruct (truthy_str cur) eqn:E; [|apply IH].
    constructor; [exact E | apply IH].
Qed.

Lemma split_truthy (s : string) :
  Forall (fun w => truthy_str w = true) (split s).
Proof. apply split_from_truthy. Qed.

End Strings.

(** ** More on the segmenter *)

Section SegmenterStructure.

Import Typewriter.

Variable r : Renderer.

(** *** The text and the budget of a line *)

Lemma text_inv_step (st : SegState) (wt : WordTiming) :
  has_word wt -> text_inv st -> text_inv (seg_step r st wt).
Proof.
  intros Hw (Hl & Hc & Ht). unfold seg_step.
  assert (Htest :
            (if truthy_str (current_line_text st)
             then (current_line_text st ++ " " ++ word wt)%string
             else word wt)
            = join (map word (current_line_words st ++ [wt]))).
  { rewrite Ht. destruct (current_line_words st) as [|w0 cw]; [reflexivity|].
    inversion Hc; subst.
    change (map word (w0 :: cw)) with (word w0 :: map word cw).
    rewrite join_truthy by assumption.
    rewrite map_app. simpl map.
    change (word w0 :: map word cw ++ [word wt])
      with ((word w0 :: map word cw) ++ [word wt]).
    now rewrite join_snoc by discriminate. }
  destruct (Nat.ltb _ _ && truthy_list _); unfold text_inv; simpl.
  - split; [|split; [repeat constructor; exact Hw | reflexivity]].
    apply Forall_app. split; [exact Hl|].
    constructor; [|constructor]. split; [exact Ht | reflexivity].
  - split; [exact Hl|]. split; [|exact Htest].
    apply Forall_app. split; [exact Hc | repeat constructor; exact Hw].
Qed.

Lemma text_inv_fold (wts : list WordTiming) (st : SegState) :
  Forall has_word wts -> text_inv st ->
  text_inv (fold_left (seg_step r) wts st).
Proof.
  revert st. induction wts as [|wt wts IH]; intros st Hw H; simpl; [exact H|].
  inversion Hw; subst. apply IH; [assumption|].
  apply text_inv_step; assumption.
Qed.

Lemma organize_text (wts : list WordTiming) :
  Forall has_word wts ->
  Forall text_of_words (organize_text_into_lines r wts).
Proof.
  intros Hw. unfold organize_text_into_lines.
  assert (H : text_inv (fold_left (seg_step r) wts seg_init)).
  { apply text_inv_fold; [exact Hw|].
    repeat split; constructor. }
  destruct H as (Hl & _ & Ht).
  destruct (truthy_list _); [|exact Hl].
  apply Forall_app. split; [exact Hl|].
  constructor; [|constructor]. split; [exact Ht | reflexivity].
Qed.

Lemma budget_inv_step (st : SegState) (wt : WordTiming) :
  budget_inv r st -> budget_inv r (seg_step r st wt).
Proof.
  intros (Hl & Hc). unfold seg_step.
  destruct (Nat.ltb _ _) eqn:E; cbn [andb].
  - destruct (current_line_words st) as [|w0 cw] eqn:Ecw; cbn [truthy_list];
      unfold budget_inv; simpl.
    + split; [exact Hl | right; simpl; lia].
    + split; [|right; lia].
      apply Forall_app. split; [exact Hl|].
      constructor; [|constructor]. unfold within_budget. simpl.
      destruct Hc as [Hc|Hc]; [left; exact Hc|].
      right. simpl in Hc. simpl. lia.
  - apply Nat.ltb_ge in E. unfold budget_inv. simpl.
    split; [exact Hl | left; exact E].
Qed.

Lemma budget_inv_fold (wts : list WordTiming) (st : SegState) :
  budget_inv r st -> budget_inv r (fold_left (seg_step r) wts st).
Proof.
  revert st. induction wts as [|wt wts IH]; intros st H; simpl; [exact H|].
  apply IH, budget_inv_step, H.
Qed.

Lemma organize_budget (wts : list WordTiming) :
  Forall (within_budget r) (organize_text_into_lines r wts).
Proof.
  unfold organize_text_into_lines.
  assert (H : budget_inv r (fold_left (seg_step r) wts seg_init)).
  { apply budget_inv_fold. split; [constructor | right; simpl; lia]. }
  destruct H as (Hl & Hc).
  destruct (current_line_words _) as [|w0 cw] eqn:Ecw; cbn [truthy_list];
    [exact Hl|].
  apply Forall_app. split; [exact Hl|].
  constructor; [|constructor]. unfold within_budget. simpl.
  destruct Hc as [Hc|Hc]; [left; exact Hc|].
  right. simpl in Hc. lia.
Qed.

(** *** The lines tile the time from zero *)

Lemma tiles_app (t : Q) (a b : list LineData) :
  tiles_from t (a ++ b) <-> tiles_from t a /\ tiles_from (lines_end t a) b.
Proof.
  revert t. induction a as [|l a IH]; intros t; simpl.
  - unfold lines_end. simpl. tauto.
  - rewrite IH. unfold lines_end. simpl. tauto.
Qed.

Lemma lines_end_snoc (t : Q) (a : list LineData) (l : LineData) :
  lines_end t (a ++ [l]) = line_end_time l.
Proof. unfold lines_end. now rewrite fold_left_app. Qed.

Lemma tiles_inv_step (st : SegState) (wt : WordTiming) :
  tiles_inv st -> tiles_inv (seg_step r st wt).
Proof.
  intros (Ht & He). unfold seg_step.
  destruct (_ && _); unfold tiles_inv; simpl; [|tauto].
  split; [|apply lines_end_snoc].
  apply tiles_app. split; [exact Ht|].
  simpl. rewrite He. tauto.
Qed.

Lemma tiles_inv_fold (wts : list WordTiming) (st : SegState) :
  tiles_inv st -> tiles_inv (fold_left (seg_step r) wts st).
Proof.
  revert st. induction wts as [|wt wts IH]; intros st H; simpl; [exact H|].
  apply IH, tiles_inv_step, H.
Qed.

Lemma organize_tiles (wts : list WordTiming) :
  tiles_from 0 (organize_text_into_lines r wts).
Proof.
  unfold organize_text_into_lines.
  assert (H : tiles_inv (fold_left (seg_step r) wts seg_init)).
  { apply tiles_inv_fold. split; [exact I | reflexivity]. }
  destruct H as (Ht & He).
  destruct (truthy_list _); [|exact Ht].
  apply tiles_app. split; [exact Ht|].
  simpl. rewrite He. tauto.
Qed.

End SegmenterStructure.

(** X1. Every line of [organize_text_into_lines] is within the budget
    of [max_chars_per_line] characters, or is made of a single word (a
    word longer than the budget is alone on its line). *)
Theorem segmenter_budget :
  forall (r : Typewriter.Renderer) (wts : list Typewriter.WordTiming)
         (l : Typewriter.LineData),
    In l (Typewriter.organize_text_into_lines r wts) ->
    (String.length (Typewriter.text l) <= Typewriter.max_chars_per_line r)%nat
    \/ List.length (Typewriter.words l) = 1%nat.
Proof.
  intros r wts l Hin.
  pose proof (organize_budget r wts) as H.
  rewrite Forall_forall in H. exact (H l Hin).
Qed.

Lemma segmenter_budget_witness :
  let w := Typewriter.mkWordTiming "Hello" 0 1 [] in
  (String.length (Typewriter.text (Typewriter.mkLineData [w] 0 1 "Hello" 5))
   <= Typewriter.max_chars_per_line Typewriter.default_renderer)%nat
  \/ List.length (Typewriter.words (Typewriter.mkLineData [w] 0 1 "Hello" 5))
     = 1%nat.
Proof.
  intros w.
  apply (@segmenter_budget Typewriter.default_renderer [w]).
  simpl. left. reflexivity.
Defined.

(** X2. When no word is the empty string, the text of every line of
    [organize_text_into_lines] is its words joined by single blanks, and
    its [max_chars] field is the length of that text. *)
Theorem segmenter_text :
  forall (r : Typewriter.Renderer) (wts : list Typewriter.WordTiming)
         (l : Typewriter.LineData),
    Forall has_word wts ->
    In l (Typewriter.organize_text_into_lines r wts) ->
    Typewriter.text l = join (map Typewriter.word (Typewriter.words l)) /\
    Typewriter.max_chars l = String.length (Typewriter.text l).
Proof.
  intros r wts l Hw Hin.
  pose proof (organize_text r Hw) as H.
  rewrite Forall_forall in H. exact (H l Hin).
Qed.

Lemma segmenter_text_witness :
  let w1 := Typewriter.mkWordTiming "Hello" 0 1 [] in
  let w2 := Typewriter.mkWordTiming "world" 1 2 [] in
  let l := Typewriter.mkLineData [w1; w2] 0 2 "Hello world" 11 in
  Typewriter.text l = join (map Typewriter.word (Typewriter.words l)) /\
  Typewriter.max_chars l = String.length (Typewriter.text l).
Proof.
  intros w1 w2 l.
  apply (@segmenter_text Typewriter.default_renderer [w1; w2] l).
  - repeat constructor.
  - simpl. left. reflexivity.
Defined.

(** X3. Whatever the word timings, the lines of
    [organize_text_into_lines] tile the time from zero: the first line
    starts at 0 and every next line starts exactly where the previous
    line ends, also when the words leave gaps. *)
Theorem segmenter_lines_tile :
  forall (r : Typewriter.Renderer) (wts : list Typewriter.WordTiming),
    tiles_from 0 (Typewriter.organize_text_into_lines r wts).
Proof. intros r wts. apply organize_tiles. Qed.

(** X4. [organize_text_into_lines] returns no line for no word, at least
    one line otherwise, and no line without a word. *)
Theorem segmenter_lines_nonempty :
  forall (r : Typewriter.Renderer) (wts : list Typewriter.WordTiming),
    (wts = [] <-> Typewriter.organize_text_into_lines r wts = []) /\
    Forall (fun l => Typewriter.words l <> [])
           (Typewriter.organize_text_into_lines r wts).
Proof.
  intros r wts. split; [|apply organize_nonempty].
  split.
  - intros ->. reflexivity.
  - intros H. pose proof (organize_words r wts) as Hw.
    rewrite H in Hw. simpl in Hw. congruence.
Qed.

(** ** The packing is greedy *)

Section SegmenterGreedy.

Import Typewriter.

Variable r : Renderer.

Lemma greedy_to_snoc (a : list LineData) (l : LineData)
      (next : list WordTiming) :
  greedy_to r (a ++ [l]) next <->
  greedy_to r a (words l) /\ overflows r l next.
Proof.
  induction a as [|x a IH]; simpl; [tauto|].
  rewrite IH. destruct a as [|y a]; simpl; tauto.
Qed.

Lemma greedy_lines_snoc (a : list LineData) (l : LineData) :
  greedy_lines r (a ++ [l]) <-> greedy_to r a (words l).
Proof.
  induction a as [|x a IH]; simpl; [tauto|].
  rewrite IH. destruct a as [|y a]; simpl; tauto.
Qed.

Lemma greedy_to_more (ls : list LineData) (cur more : list WordTiming) :
  cur <> [] -> greedy_to r ls cur -> greedy_to r ls (cur ++ more).
Proof.
  intros Hc. induction ls as [|l ls IH]; simpl; [tauto|].
  intros [H1 H2]. split; [|apply IH, H2].
  destruct ls; [|exact H1].
  destruct cur; [congruence | exact H1].
Qed.

Lemma greedy_inv_step (st : SegState) (wt : WordTiming) :
  greedy_inv r st -> greedy_inv r (seg_step r st wt).
Proof.
  intros (Hg & He). unfold seg_step.
  destruct (Nat.ltb _ _) eqn:E; cbn [andb].
  - destruct (current_line_words st) as [|w0 cw] eqn:Ecw; cbn [truthy_list];
      unfold greedy_inv; simpl.
    + rewrite (He eq_refl). simpl. split; [exact I | discriminate].
    + split; [|discriminate].
      apply greedy_to_snoc. split; [exact Hg|].
      unfold overflows. simpl. apply Nat.ltb_lt in E. exact E.
  - unfold greedy_inv. simpl. split.
    + destruct (current_line_words st) as [|w0 cw] eqn:Ecw.
      * rewrite (He eq_refl). exact I.
      * apply greedy_to_more; [discriminate | exact Hg].
    + intros H. destruct (current_line_words st); discriminate.
Qed.

Lemma greedy_inv_fold (wts : list WordTiming) (st : SegState) :
  greedy_inv r st -> greedy_inv r (fold_left (seg_step r) wts st).
Proof.
  revert st. induction wts as [|wt wts IH]; intros st H; simpl; [exact H|].
  apply IH, greedy_inv_step, H.
Qed.

Lemma organize_greedy (wts : list WordTiming) :
  greedy_lines r (organize_text_into_lines r wts).
Proof.
  unfold organize_text_into_lines.
  assert (H : greedy_inv r (fold_left (seg_step r) wts seg_init)).
  { apply greedy_inv_fold. split; [exact I | reflexivity]. }
  destruct H as (Hg & He).
  destruct (current_line_words _) as [|w0 cw] eqn:Ecw; cbn [truthy_list].
  - rewrite (He eq_refl). exact I.
  - apply greedy_lines_snoc. exact Hg.
Qed.

End SegmenterGreedy.

(** X5. The packing of [organize_text_into_lines] is greedy: a line is
    closed only when the first word of the next line, added after a
    blank, would take it over [max_chars_per_line] characters. *)
Theorem segmenter_greedy :
  forall (r : Typewriter.Renderer) (wts : list Typewriter.WordTiming),
    greedy_lines r (Typewriter.organize_text_into_lines r wts).
Proof. intros r wts. apply organize_greedy. Qed.

(** ** More on the typed length *)

Section TypedLength.

Import Typewriter.

Local Open Scope Q_scope.

Lemma word_typed_le (t : Q) (w : WordTiming) :
  positions_fit w -> (word_typed t w <= String.length (word w))%nat.
Proof.
  unfold positions_fit, word_typed. intros H.
  pose proof (count_typed_length t (char_positions w)).
  destruct (geb t (end_time w)); [lia|].
  destruct (geb t (start_time w)); lia.
Qed.

Lemma typed_chars_le (t : Q) (ws : list WordTiming) :
  Forall positions_fit ws ->
  forall a : nat,
    (typed_chars t ws a <= a + total_chars (map word ws))%nat.
Proof.
  unfold typed_chars.
  induction 1 as [|w ws Hw _ IH]; intros a; simpl; [lia|].
  pose proof (word_typed_le t Hw). specialize (IH (a + word_typed t w)%nat).
  unfold total_chars in *. simpl. lia.
Qed.

Lemma word_typed_done (t : Q) (w : WordTiming) :
  end_time w <= t -> word_typed t w = String.length (word w).
Proof.
  intros H. unfold word_typed. apply geb_true in H. now rewrite H.
Qed.

Lemma typed_chars_done (t : Q) (ws : list WordTiming) :
  Forall (fun w => end_time w <= t) ws ->
  forall a : nat,
    typed_chars t ws a = (a + total_chars (map word ws))%nat.
Proof.
  unfold typed_chars.
  induction 1 as [|w ws Hw _ IH]; intros a; simpl; [lia|].
  rewrite IH, (word_typed_done _ Hw). unfold total_chars. simpl. lia.
Qed.

Lemma word_typed_before (t : Q) (w : WordTiming) :
  t < start_time w -> start_time w <= end_time w -> word_typed t w = 0%nat.
Proof.
  intros H1 H2. unfold word_typed.
  assert (E1 : geb t (end_time w) = false) by (apply geb_false; lra).
  assert (E2 : geb t (start_time w) = false) by (apply geb_false; lra).
  now rewrite E1, E2.
Qed.

End TypedLength.

(** X6. The typed length of a line none of whose words has more char
    positions than characters never exceeds the number of characters of
    its words: the blanks between the words are not counted. *)
Theorem typed_length_bound :
  forall (line : Typewriter.LineData) (t : Q),
    Forall positions_fit (Typewriter.words line) ->
    (Typewriter.get_typing_progress line t
     <= total_chars (map Typewriter.word (Typewriter.words line)))%nat.
Proof.
  intros line t Hfit. unfold Typewriter.get_typing_progress.
  destruct (ltb t (Typewriter.line_start_time line)); [lia|].
  pose proof (typed_chars_le t Hfit 0) as H. unfold typed_chars in H.
  simpl in H. lia.
Qed.

Lemma typed_length_bound_witness :
  let hello :=
    Typewriter.mkWordTiming "Hello" 0 1
      [0%Q; (1 # 5)%Q; (2 # 5)%Q; (3 # 5)%Q; (4 # 5)%Q] in
  let line := Typewriter.mkLineData [hello] 0 1 "Hello" 5 in
  (Typewriter.get_typing_progress line (1 # 2)
   <= total_chars (map Typewriter.word (Typewriter.words line)))%nat.
Proof.
  intros hello line.
  apply (@typed_length_bound line (1 # 2)).
  repeat constructor.
Defined.

(** X7. Once the line has started and every word of it has ended, the
    typed length is the number of characters of the words, capped by
    the length of the text. *)
Theorem typed_length_complete :
  forall (line : Typewriter.LineData) (t : Q),
    (Typewriter.line_start_time line <= t)%Q ->
    Forall (fun w => (Typewriter.end_time w <= t)%Q) (Typewriter.words line) ->
    Typewriter.get_typing_progress line t
    = Nat.min (total_chars (map Typewriter.word (Typewriter.words line)))
              (String.length (Typewriter.text line)).
Proof.
  intros line t Hs He. unfold Typewriter.get_typing_progress.
  apply ltb_false in Hs. rewrite Hs.
  pose proof (typed_chars_done He 0) as H. unfold typed_chars in H.
  rewrite H. reflexivity.
Qed.

Lemma typed_length_complete_witness :
  let hello :=
    Typewriter.mkWordTiming "Hello" 0 1
      [0%Q; (1 # 5)%Q; (2 # 5)%Q; (3 # 5)%Q; (4 # 5)%Q] in
  let world :=
    Typewriter.mkWordTiming "world" 1 2
      [1%Q; (6 # 5)%Q; (7 # 5)%Q; (8 # 5)%Q; (9 # 5)%Q] in
  let line := Typewriter.mkLineData [hello; world] 0 2 "Hello world" 11 in
  Typewriter.get_typing_progress line 2
  = Nat.min (total_chars (map Typewriter.word (Typewriter.words line)))
            (String.length (Typewriter.text line)).
Proof.
  intros hello world line.
  apply (@typed_length_complete line 2).
  - discriminate.
  - repeat constructor; discriminate.
Defined.

(** ** The estimator, the segmenter and the typed length together *)

Section Pipeline.

Import Typewriter.

Local Open Scope Q_scope.

Lemma estimate_has_words (txt : string) (d : Q) (wts : list WordTiming) :
  _estimate_word_timings txt d = Ok wts -> Forall has_word wts.
Proof.
  intros H. destruct (estimate_ok txt d) as (wts' & H1 & H2 & _).
  rewrite H in H1. inversion H1; subst wts'.
  pose proof (split_truthy txt) as Hs. rewrite <- H2 in Hs.
  rewrite Forall_map in Hs. exact Hs.
Qed.

Lemma estimate_positions_fit (txt : string) (d : Q) (wts : list WordTiming) :
  _estimate_word_timings txt d = Ok wts -> Forall positions_fit wts.
Proof.
  intros H. destruct (estimate_ok txt d) as (wts' & H1 & _ & _ & H4 & _).
  rewrite H in H1. inversion H1; subst wts'.
  eapply Forall_impl; [|exact H4].
  intros w Hw. unfold positions_fit, one_position_per_char in *. lia.
Qed.

Lemma line_words_in (r : Renderer) (wts : list WordTiming) (l : LineData)
      (P : WordTiming -> Prop) :
  Forall P wts -> In l (organize_text_into_lines r wts) ->
  Forall P (words l).
Proof.
  intros HP Hin. rewrite Forall_forall in *. intros w Hw. apply HP.
  rewrite <- (organize_words r wts). apply in_concat.
  exists (words l). split; [apply in_map, Hin | exact Hw].
Qed.

End Pipeline.

(** X8. On the lines made from the estimated timings of any text, for
    any duration, the typed length never decreases with time. *)
Theorem pipeline_typed_length_monotone :
  forall (r : Typewriter.Renderer) (txt : string) (d : Q),
    exists wts,
      Typewriter._estimate_word_timings txt d = Ok wts /\
      forall (l : Typewriter.LineData) (t1 t2 : Q),
        In l (Typewriter.organize_text_into_lines r wts) ->
        (t1 <= t2)%Q ->
        (Typewriter.get_typing_progress l t1
         <= Typewriter.get_typing_progress l t2)%nat.
Proof.
  intros r txt d. destruct (estimate_ok txt d) as (wts & H1 & _).
  exists wts. split; [exact H1|].
  intros l t1 t2 Hin Hle. apply typing_progress_mono; [exact Hle|].
  exact (line_words_in r l (estimate_positions_fit _ _ H1) Hin).
Qed.

(** X9. On the lines made from the estimated timings of any text, the
    typed length stays below the length of the text by the number of
    blanks of the line: the display [text[:typed]] of a line of two or
    more words never shows its last characters. *)
Theorem pipeline_line_never_complete :
  forall (r : Typewriter.Renderer) (txt : string) (d : Q),
    exists wts,
      Typewriter._estimate_word_timings txt d = Ok wts /\
      forall (l : Typewriter.LineData) (t : Q),
        In l (Typewriter.organize_text_into_lines r wts) ->
        (Typewriter.get_typing_progress l t + List.length (Typewriter.words l)
         <= String.length (Typewriter.text l) + 1)%nat.
Proof.
  intros r txt d. destruct (estimate_ok txt d) as (wts & H1 & _).
  exists wts. split; [exact H1|].
  intros l t Hin.
  pose proof (line_words_in r l (estimate_positions_fit _ _ H1) Hin) as Hfit.
  pose proof (organize_text r (estimate_has_words _ _ H1)) as Htext.
  rewrite Forall_forall in Htext. destruct (Htext l Hin) as [Ht _].
  pose proof (organize_nonempty r wts) as Hne.
  rewrite Forall_forall in Hne. specialize (Hne l Hin).
  pose proof (typed_chars_le t Hfit 0) as Hb. unfold typed_chars in Hb.
  assert (Hj : (String.length (Typewriter.text l) + 1
                = total_chars (map Typewriter.word (Typewriter.words l))
                  + List.length (Typewriter.words l))%nat).
  { rewrite Ht, join_length, length_map; [reflexivity|].
    destruct (Typewriter.words l); [congruence | discriminate]. }
  unfold Typewriter.get_typing_progress.
  destruct (ltb t (Typewriter.line_start_time l)); simpl in *; lia.
Qed.

(** X10. Every line made from the estimated timings of any text starts
    at the start of its first word and ends at the end of its last
    word. *)
Theorem pipeline_lines_span_words :
  forall (r : Typewriter.Renderer) (txt : string) (d : Q),
    exists wts,
      Typewriter._estimate_word_timings txt d = Ok wts /\
      Forall spans_its_words (Typewriter.organize_text_into_lines r wts).
Proof.
  intros r txt d. destruct (estimate_ok txt d) as (wts & H1 & _ & H3 & _).
  exists wts. split; [exact H1 | apply organize_spans, H3].
Qed.

(** ** The char positions of a word *)

Section CharTimings.

Import Typewriter.

Local Open Scope Q_scope.

Lemma mapM_pure (A B : Type) (f : A -> exc B) (g : A -> B) (xs : list A) :
  (forall x, In x xs -> f x = Ok (g x)) -> mapM f xs = Ok (map g xs).
Proof.
  induction xs as [|x xs IH]; intros H; simpl; [reflexivity|].
  rewrite (H x (or_introl eq_refl)). simpl.
  rewrite IH by (intros y Hy; apply H; right; exact Hy).
  reflexivity.
Qed.

Lemma char_timings_formula (w : string) (s e : Q) :
  _estimate_char_timings w s e
  = Ok (map (fun i => s + (e - s) * of_nat i / of_nat (String.length w))
            (seq 0 (String.length w))).
Proof.
  unfold _estimate_char_timings.
  destruct (Nat.eqb (String.length w) 0) eqn:E.
  - apply Nat.eqb_eq in E. rewrite E. reflexivity.
  - apply Nat.eqb_neq in E. apply mapM_pure.
    intros i _. rewrite fdiv_ok by (apply of_nat_nonzero, E). reflexivity.
Qed.

Lemma of_nat_nonneg (n : nat) : 0 <= of_nat n.
Proof.
  unfold of_nat. change 0 with (inject_Z 0). rewrite <- Zle_Qle. lia.
Qed.

Lemma of_nat_lt (n m : nat) : (n < m)%nat -> of_nat n < of_nat m.
Proof. intros H. unfold of_nat. rewrite <- Zlt_Qlt. lia. Qed.

Lemma position_in_range (s e : Q) (i n : nat) :
  s <= e -> (i < n)%nat ->
  s <= s + (e - s) * of_nat i / of_nat n /\
  s + (e - s) * of_nat i / of_nat n <= e /\
  (s < e -> s + (e - s) * of_nat i / of_nat n < e).
Proof.
  intros Hse Hi.
  assert (Hn : 0 < of_nat n).
  { apply Qle_lt_trans with (of_nat i); [apply of_nat_nonneg|].
    apply of_nat_lt, Hi. }
  pose proof (of_nat_nonneg i) as H0.
  pose proof (of_nat_lt Hi) as Hlt.
  assert (Hlo : 0 <= (e - s) * of_nat i / of_nat n).
  { apply Qle_shift_div_l; [exact Hn|]. rewrite Qmult_0_l.
    apply Qmult_le_0_compat; [lra | exact H0]. }
  assert (Hhi : (e - s) * of_nat i / of_nat n <= e - s).
  { apply Qle_shift_div_r; [exact Hn|].
    remember (of_nat i) as x. remember (of_nat n) as y. nra. }
  repeat split; try lra.
  intros Hlt'.
  assert (Hst : (e - s) * of_nat i / of_nat n < e - s).
  { apply Qlt_shift_div_r; [exact Hn|].
    remember (of_nat i) as x. remember (of_nat n) as y. nra. }
  lra.
Qed.

End CharTimings.

Section EstimatedWords.

Import Typewriter.

Local Open Scope Q_scope.

Lemma estimate_loop_shape (avg : Q) (ws : list string) (t : Q) :
  exists wts,
    estimate_loop avg ws t = Ok wts /\ Forall (evenly_timed avg) wts.
Proof.
  revert t. induction ws as [|w ws IH]; intros t.
  - exists []. split; [reflexivity | constructor].
  - cbn [estimate_loop]. rewrite (fdiv_ok _ five_nonzero). cbn [bind].
    rewrite char_timings_formula. cbn [bind].
    destruct (IH (t + avg * (of_nat (String.length w) / 5)))
      as (tl & Htl & Hall).
    rewrite Htl. cbn [bind ret].
    eexists. split; [reflexivity|].
    constructor; [|exact Hall]. split; reflexivity.
Qed.

Lemma estimate_shape (txt : string) (d : Q) (wts : list WordTiming) :
  _estimate_word_timings txt d = Ok wts ->
  Forall (evenly_timed (d / of_nat (List.length (split txt)))) wts.
Proof.
  unfold _estimate_word_timings.
  destruct (split txt) as [|w ws] eqn:E.
  - simpl. intros H. inversion H. constructor.
  - cbn [truthy_list negb].
    assert (Hn : ~ of_nat (List.length (w :: ws)) == 0)
      by (apply of_nat_nonzero; discriminate).
    rewrite (fdiv_ok _ Hn). cbn [bind].
    destruct (estimate_loop_shape (d / of_nat (List.length (w :: ws)))
                                  (w :: ws) 0) as (wts' & H1 & H2).
    rewrite H1. intros H. inversion H; subst. exact H2.
Qed.

Lemma truthy_length (s : string) :
  truthy_str s = true -> (1 <= String.length s)%nat.
Proof. destruct s; simpl; [discriminate | lia]. Qed.

End EstimatedWords.



(** X12. For a duration that is not negative, no estimated word ends
    before it starts, and the char positions of every estimated word
    lie in its interval, from its start to its end. *)
Theorem estimated_words_well_formed :
  forall (txt : string) (d : Q),
    (0 <= d)%Q ->
    exists wts,
      Typewriter._estimate_word_timings txt d = Ok wts /\
      Forall (fun w => (Typewriter.start_time w <= Typewriter.end_time w)%Q /\
                       positions_inside w) wts.
Proof.
  intros txt d Hd. destruct (estimate_ok txt d) as (wts & H1 & H2 & _).
  exists wts. split; [exact H1|].
  pose proof (estimate_shape _ _ H1) as Hs.
  assert (Hn : (0 < of_nat (List.length (split txt)))%Q \/ wts = []).
  { destruct (split txt) as [|x xs] eqn:E.
    - right. destruct wts; [reflexivity | discriminate].
    - left. apply (of_nat_lt (n := 0)). simpl. lia. }
  destruct Hn as [Hn | ->]; [|constructor].
  assert (Havg : (0 <= d / of_nat (List.length (split txt)))%Q).
  { apply Qle_shift_div_l; [exact Hn | lra]. }
  rewrite Forall_forall in *. intros w Hin.
  destruct (Hs w Hin) as [He Hc].
  pose proof (of_nat_nonneg (String.length (Typewriter.word w))) as Hlen.
  assert (Hle : (Typewriter.start_time w <= Typewriter.end_time w)%Q).
  { rewrite He.
    assert (0 <= d / of_nat (List.length (split txt))
                 * (of_nat (String.length (Typewriter.word w)) / 5))%Q.
    { apply Qmult_le_0_compat; [exact Havg|].
      apply Qle_shift_div_l; [reflexivity | lra]. }
    lra. }
  split; [exact Hle|].
  unfold positions_inside. rewrite Hc, Forall_forall. intros p Hp.
  apply in_map_iff in Hp. destruct Hp as [i [<- Hi]].
  apply in_seq in Hi.
  destruct (@position_in_range (Typewriter.start_time w)
              (Typewriter.end_time w) i
              (String.length (Typewriter.word w))) as (P1 & P2 & P3);
    [lra | lia |].
  split; [exact P1 | exact P2].
Qed.

Lemma estimated_words_well_formed_witness :
  exists wts,
    Typewriter._estimate_word_timings "Hello world" 2 = Ok wts /\
    Forall (fun w => (Typewriter.start_time w <= Typewriter.end_time w)%Q /\
                     positions_inside w) wts.
Proof.
  apply (@estimated_words_well_formed "Hello world" 2). discriminate.
Defined.

(** ** The bold positions: [get_bold_positions] *)

Section BoldPositions.

Import Typewriter.

Local Open Scope Q_scope.

Lemma total_chars_app (a b : list string) :
  total_chars (a ++ b) = (total_chars a + total_chars b)%nat.
Proof.
  unfold total_chars. induction a as [|x a IH]; simpl; [reflexivity|].
  rewrite IH. lia.
Qed.

Lemma bold_loop_app (t : Q) (a b : list WordTiming) (k : nat) :
  bold_loop t (a ++ b) k
  = bold_loop t a k
    ++ bold_loop t b (k + total_chars (map word a) + List.length a).
Proof.
  revert k. induction a as [|w a IH]; intros k; simpl.
  - f_equal. unfold total_chars. simpl. lia.
  - rewrite IH, <- app_assoc. do 3 f_equal.
    unfold total_chars. simpl. lia.
Qed.

(** A bold position is the index of a character of the joined words. *)
Lemma bold_loop_range (t : Q) (ws : list WordTiming) (k p : nat) :
  In p (bold_loop t ws k) ->
  (k <= p /\ p + 1 < k + total_chars (map word ws) + List.length ws)%nat.
Proof.
  revert k. induction ws as [|w ws IH]; intros k; simpl; [tauto|].
  intros H. apply in_app_or in H.
  change (total_chars (word w :: map word ws))
    with (String.length (word w) + total_chars (map word ws))%nat.
  destruct H as [H|H].
  - destruct (_ && _); [|contradiction].
    apply in_map_iff in H. destruct H as [i [<- Hi]].
    apply in_seq in Hi. lia.
  - apply IH in H. lia.
Qed.

Lemma bold_loop_spoken (t : Q) (w : WordTiming) (k : nat) :
  spoken_at t w ->
  bold_loop t [w] k
  = map (fun i => (k + i)%nat) (seq 0 (String.length (word w))).
Proof.
  intros [H1 H2]. simpl.
  apply geb_true in H1. apply leb_true in H2. rewrite H1, H2. simpl.
  now rewrite app_nil_r.
Qed.

End BoldPositions.

(** X13. On a line of [organize_text_into_lines] made of words none of
    which is empty, every bold position is the index of a character of
    the text of the line. *)
Theorem bold_positions_in_text :
  forall (r : Typewriter.Renderer) (wts : list Typewriter.WordTiming)
         (l : Typewriter.LineData) (t : Q) (p : nat),
    Forall has_word wts ->
    In l (Typewriter.organize_text_into_lines r wts) ->
    In p (Typewriter.get_bold_positions l t) ->
    (p < String.length (Typewriter.text l))%nat.
Proof.
  intros r wts l t p Hw Hin Hp.
  pose proof (organize_text r Hw) as Htext.
  rewrite Forall_forall in Htext. destruct (Htext l Hin) as [Ht _].
  pose proof (organize_nonempty r wts) as Hne.
  rewrite Forall_forall in Hne. specialize (Hne l Hin).
  apply bold_loop_range in Hp.
  assert (Hj : (String.length (Typewriter.text l) + 1
                = total_chars (map Typewriter.word (Typewriter.words l))
                  + List.length (Typewriter.words l))%nat).
  { rewrite Ht, join_length, length_map; [reflexivity|].
    destruct (Typewriter.words l); [congruence | discriminate]. }
  lia.
Qed.

Lemma bold_positions_in_text_witness :
  let w1 := Typewriter.mkWordTiming "Hello" 0 1 [] in
  let w2 := Typewriter.mkWordTiming "world" 1 2 [] in
  let l := Typewriter.mkLineData [w1; w2] 0 2 "Hello world" 11 in
  (6 < String.length (Typewriter.text l))%nat.
Proof.
  intros w1 w2 l.
  apply (@bold_positions_in_text Typewriter.default_renderer [w1; w2] l
           (3 # 2) 6%nat).
  - repeat constructor.
  - simpl. left. reflexivity.
  - simpl. tauto.
Defined.

(** X14. When two neighbouring words of a line are both being spoken at
    [t] (the bounds of a word are inclusive, so this is the case at the
    instant where one word ends and the next one starts), the characters
    of both are bold. *)
Theorem bold_two_words_at_once :
  forall (line : Typewriter.LineData) (t : Q)
         (before after : list Typewriter.WordTiming)
         (w1 w2 : Typewriter.WordTiming),
    Typewriter.words line = before ++ w1 :: w2 :: after ->
    spoken_at t w1 -> spoken_at t w2 ->
    (String.length (Typewriter.word w1) + String.length (Typewriter.word w2)
     <= List.length (Typewriter.get_bold_positions line t))%nat.
Proof.
  intros line t before after w1 w2 Hw H1 H2.
  unfold Typewriter.get_bold_positions. rewrite Hw.
  change (w1 :: w2 :: after) with ([w1] ++ [w2] ++ after).
  rewrite !bold_loop_app, !length_app.
  rewrite (bold_loop_spoken _ H1), (bold_loop_spoken _ H2).
  rewrite !length_map, !length_seq. lia.
Qed.

Lemma bold_two_words_at_once_witness :
  let w1 := Typewriter.mkWordTiming "Hello" 0 1 [] in
  let w2 := Typewriter.mkWordTiming "world" 1 2 [] in
  let l := Typewriter.mkLineData [w1; w2] 0 2 "Hello world" 11 in
  (String.length (Typewriter.word w1) + String.length (Typewriter.word w2)
   <= List.length (Typewriter.get_bold_positions l 1))%nat.
Proof.
  intros w1 w2 l.
  apply (@bold_two_words_at_once l 1 [] [] w1 w2).
  - reflexivity.
  - split; discriminate.
  - split; discriminate.
Defined.

(** ** More on the triggers and the overlays *)

Section TriggerFacts.

Import Semantic.

Local Open Scope Q_scope.

Lemma first_keyword_found (txt : string) (kws : list string) (kw : string) :
  first_keyword txt kws = Some kw ->
  In kw kws /\ contains (lower kw) (lower txt) = true.
Proof.
  induction kws as [|k kws IH]; simpl; [discriminate|].
  destruct (contains (lower k) (lower txt)) eqn:E.
  - intros H. inversion H; subst. tauto.
  - intros H. destruct (IH H). tauto.
Qed.

Lemma segment_triggers_entry (d : Q) (txt : string) (s : Q)
      (table : list (string * AnimData)) (tr : Trigger) :
  In tr (segment_triggers d txt s table) ->
  exists data,
    In (type tr, data) table /\
    In (keyword tr) (keywords data) /\
    contains (lower (keyword tr)) (lower (text tr)) = true /\
    text tr = txt /\ start_time tr = s /\ duration tr = d /\
    trigger_emoji tr = emoji data /\ trigger_color tr = color data.
Proof.
  induction table as [|[k data] table IH]; simpl; [tauto|].
  destruct (first_keyword txt (keywords data)) as [kw|] eqn:E.
  - intros [<-|H].
    + apply first_keyword_found in E. exists data. simpl. tauto.
    + destruct (IH H) as [data' Hd]. exists data'. tauto.
  - intros H. destruct (IH H) as [data' Hd]. exists data'. tauto.
Qed.

Lemma segment_triggers_length (d : Q) (txt : string) (s : Q)
      (table : list (string * AnimData)) :
  (List.length (segment_triggers d txt s table) <= List.length table)%nat.
Proof.
  induction table as [|[k data] table IH]; simpl; [lia|].
  destruct (first_keyword txt (keywords data)); simpl; lia.
Qed.

Lemma flat_map_length (A B : Type) (f : A -> list B) (k : nat)
      (l : list A) :
  (forall x, List.length (f x) <= k)%nat ->
  (List.length (flat_map f l) <= k * List.length l)%nat.
Proof.
  intros H. induction l as [|x l IH]; simpl; [lia|].
  rewrite length_app. specialize (H x). lia.
Qed.

Lemma word_groups_length (ws : list string) :
  List.length (word_groups ws) = ((List.length ws + 9) / 10)%nat.
Proof.
  unfold word_groups, range_step.
  rewrite !length_map, length_seq. f_equal. lia.
Qed.

Lemma enumerate_in (A : Type) (l : list A) (i : nat) (x : A) :
  In (i, x) (enumerate l) -> (i < List.length l)%nat /\ In x l.
Proof.
  unfold enumerate. intros H. split.
  - apply in_combine_l in H. apply in_seq in H. lia.
  - apply in_combine_r in H. exact H.
Qed.

(** The triggers of a narration, window by window. *)
Lemma analyze_trigger (a : Animator) (txt : string) (d : Q)
      (trs : list Trigger) (tr : Trigger) :
  analyze_narration a txt d = Ok trs ->
  In tr trs ->
  exists (i : nat) (data : AnimData),
    (i < (List.length (split txt) + 9) / 10)%nat /\
    start_time tr
    = of_nat i * (d / of_nat (Nat.max 1 (List.length (split txt) / 10))) /\
    In (type tr, data) (animation_mappings a) /\
    In (keyword tr) (keywords data) /\
    contains (lower (keyword tr)) (lower (text tr)) = true /\
    duration tr = animation_duration a /\
    trigger_emoji tr = emoji data /\ trigger_color tr = color data.
Proof.
  unfold analyze_narration.
  destruct (negb (truthy_str txt)).
  - intros H. inversion H. contradiction.
  - rewrite fdiv_ok by (apply of_nat_nonzero; lia). cbn [bind ret].
    intros H Hin. inversion H; subst. clear H.
    apply in_flat_map in Hin. destruct Hin as [[i grp] [Hi Hin]].
    apply enumerate_in in Hi. destruct Hi as [Hi _].
    rewrite word_groups_length in Hi.
    apply segment_triggers_entry in Hin.
    destruct Hin as (data & H1 & H2 & H3 & _ & H5 & H6 & H7 & H8).
    exists i, data. simpl in H5. tauto.
Qed.

Lemma window_index_bound (n i : nat) :
  (i < (n + 9) / 10)%nat -> (i <= Nat.max 1 (n / 10))%nat.
Proof.
  intros H.
  pose proof (Nat.div_mod_eq n 10) as E1.
  pose proof (Nat.mod_upper_bound n 10 ltac:(lia)) as B1.
  pose proof (Nat.div_mod_eq (n + 9) 10) as E2.
  pose proof (Nat.mod_upper_bound (n + 9) 10 ltac:(lia)) as B2.
  lia.
Qed.

(** The chain of tests of [create_animation_overlay], once the progress
    is known, returns: it draws with that trigger and that progress, or
    gives nothing. *)
Lemma overlay_cases (tr : Trigger) (t : Q) :
  create_animation_overlay tr t = Raise ZeroDivisionError /\
  in_window tr t /\ duration tr == 0
  \/
  create_animation_overlay tr t = Ok None
  \/
  (exists m,
      create_animation_overlay tr t
      = Ok (Some (Drawn m tr ((t - start_time tr) / duration tr)))) /\
  in_window tr t /\ ~ duration tr == 0.
Proof.
  unfold create_animation_overlay, in_window.
  destruct (ltb t (start_time tr)) eqn:E1; [right; left; reflexivity|].
  destruct (gtb t (start_time tr + duration tr)) eqn:E2;
    [right; left; reflexivity|].
  apply ltb_false in E1. apply gtb_false in E2. cbn [orb].
  unfold fdiv. destruct (Qeq_bool (duration tr) 0) eqn:E3.
  - left. apply Qeq_bool_iff in E3. cbn [bind]. tauto.
  - right. cbn [bind].
    assert (E4 : ~ duration tr == 0).
    { intros H. apply Qeq_bool_iff in H. congruence. }
    repeat match goal with
           | |- context [if String.eqb ?x ?y then _ else _] =>
               destruct (String.eqb x y);
               [right; split; [eexists; reflexivity | tauto]|]
           end.
    left. reflexivity.
Qed.

Lemma pasted_none (its : list (nat * Trigger)) (t : Q) :
  (forall i tr, In (i, tr) its -> create_animation_overlay tr t = Ok None) ->
  pasted its t = Ok [].
Proof.
  induction its as [|[i tr] its IH]; intros H; simpl; [reflexivity|].
  rewrite (H i tr (or_introl eq_refl)). cbn [bind].
  rewrite IH by (intros j tr' Hj; apply (H j), or_intror, Hj).
  reflexivity.
Qed.

End TriggerFacts.

(** X15. [analyze_narration] never raises, whatever the duration (the
    divisor [max(1, total_words // 10)] is at least 1), and a narration
    without a word, empty or blank, has no trigger. *)
Theorem analyze_total :
  forall (a : Semantic.Animator) (txt : string) (d : Q),
    exists trs,
      Semantic.analyze_narration a txt d = Ok trs /\
      (split txt = [] -> trs = []).
Proof.
  intros a txt d. unfold Semantic.analyze_narration.
  destruct (negb (truthy_str txt)); [exists []; split; reflexivity|].
  rewrite fdiv_ok by (apply of_nat_nonzero; lia). cbn [bind ret].
  eexists. split; [reflexivity|].
  intros ->. reflexivity.
Qed.

(** X16. Every trigger of [analyze_narration] is an entry of the table:
    its type is a key of [animation_mappings], its keyword is a keyword
    of that entry and occurs in the text of the trigger when both are
    put in lower case, its emoji and colour are those of the entry and
    its duration is [animation_duration]. *)
Theorem analyze_trigger_sound :
  forall (a : Semantic.Animator) (txt : string) (d : Q)
         (trs : list Semantic.Trigger) (tr : Semantic.Trigger),
    Semantic.analyze_narration a txt d = Ok trs ->
    In tr trs ->
    exists data,
      In (Semantic.type tr, data) (Semantic.animation_mappings a) /\
      In (Semantic.keyword tr) (Semantic.keywords data) /\
      contains (lower (Semantic.keyword tr)) (lower (Semantic.text tr))
      = true /\
      Semantic.trigger_emoji tr = Semantic.emoji data /\
      Semantic.trigger_color tr = Semantic.color data /\
      Semantic.duration tr = Semantic.animation_duration a.
Proof.
  intros a txt d trs tr H Hin.
  destruct (@analyze_trigger _ _ _ _ _ H Hin) as (i & data & Hd).
  exists data. tauto.
Qed.

Lemma analyze_trigger_sound_witness :
  let tr :=
    Semantic.mkTrigger "loop" (of_nat 0 * (4 / of_nat (Nat.max 1 (2 / 10))))
      2 "a loop" "loop" "🔄" (100, 255, 100)%nat in
  exists data,
    In (Semantic.type tr, data)
       (Semantic.animation_mappings Semantic.default_animator) /\
    In (Semantic.keyword tr) (Semantic.keywords data) /\
    contains (lower (Semantic.keyword tr)) (lower (Semantic.text tr)) = true /\
    Semantic.trigger_emoji tr = Semantic.emoji data /\
    Semantic.trigger_color tr = Semantic.color data /\
    Semantic.duration tr
    = Semantic.animation_duration Semantic.default_animator.
Proof.
  intros tr.
  apply (@analyze_trigger_sound Semantic.default_animator "a loop" 4 [tr] tr).
  - reflexivity.
  - left. reflexivity.
Defined.

(** X17. Every trigger of [analyze_narration] starts at
    [i * (duration / max(1, total_words // 10))] for a window index [i]
    from 0 to [max(1, total_words // 10)]; for a duration that is not
    negative this start is not negative. *)
Theorem analyze_trigger_start :
  forall (a : Semantic.Animator) (txt : string) (d : Q)
         (trs : list Semantic.Trigger) (tr : Semantic.Trigger),
    Semantic.analyze_narration a txt d = Ok trs ->
    In tr trs ->
    exists i : nat,
      (i <= Nat.max 1 (List.length (split txt) / 10))%nat /\
      Semantic.start_time tr
      = (of_nat i
         * (d / of_nat (Nat.max 1 (List.length (split txt) / 10))))%Q /\
      ((0 <= d)%Q -> (0 <= Semantic.start_time tr)%Q).
Proof.
  intros a txt d trs tr H Hin.
  destruct (@analyze_trigger _ _ _ _ _ H Hin) as (i & data & Hi & Hs & _).
  exists i. split; [apply window_index_bound, Hi|]. split; [exact Hs|].
  intros Hd. rewrite Hs.
  set (m := Nat.max 1 (List.length (split txt) / 10)) in *.
  assert (Hmpos : (0 < of_nat m)%Q) by (apply (of_nat_lt (n := 0)); lia).
  pose proof (of_nat_nonneg i) as Hi0.
  assert (Hx : (0 <= d / of_nat m)%Q).
  { apply Qle_shift_div_l; [exact Hmpos | lra]. }
  apply Qmult_le_0_compat; assumption.
Qed.

Lemma analyze_trigger_start_witness :
  let tr :=
    Semantic.mkTrigger "loop" (of_nat 0 * (4 / of_nat (Nat.max 1 (2 / 10))))
      2 "a loop" "loop" "🔄" (100, 255, 100)%nat in
  exists i : nat,
    (i <= Nat.max 1 (List.length (split "a loop") / 10))%nat /\
    Semantic.start_time tr
    = (of_nat i
       * (4 / of_nat (Nat.max 1 (List.length (split "a loop") / 10))))%Q /\
    ((0 <= 4)%Q -> (0 <= Semantic.start_time tr)%Q).
Proof.
  intros tr.
  apply (@analyze_trigger_start Semantic.default_animator "a loop" 4 [tr] tr).
  - reflexivity.
  - left. reflexivity.
Defined.

(** X18. [analyze_narration] emits at most one trigger per kind of the
    table and per window of ten words: no more triggers than the number
    of kinds times the number of windows. *)
Theorem analyze_trigger_count :
  forall (a : Semantic.Animator) (txt : string) (d : Q)
         (trs : list Semantic.Trigger),
    Semantic.analyze_narration a txt d = Ok trs ->
    (List.length trs
     <= List.length (Semantic.animation_mappings a)
        * ((List.length (split txt) + 9) / 10))%nat.
Proof.
  intros a txt d trs. unfold Semantic.analyze_narration.
  destruct (negb (truthy_str txt)).
  - intros H. inversion H. simpl. lia.
  - rewrite fdiv_ok by (apply of_nat_nonzero; lia). cbn [bind ret].
    intros H. inversion H; subst. clear H.
    rewrite <- word_groups_length.
    replace (List.length (Semantic.word_groups (split txt)))
      with (List.length (Semantic.enumerate (Semantic.word_groups (split txt)))).
    + apply flat_map_length. intros x. apply segment_triggers_length.
    + unfold Semantic.enumerate. rewrite length_combine, length_seq. lia.
Qed.

Lemma analyze_trigger_count_witness :
  (List.length
     [Semantic.mkTrigger "loop"
        (of_nat 0 * (4 / of_nat (Nat.max 1 (2 / 10))))
        2 "a loop" "loop" "🔄" (100, 255, 100)%nat]
   <= List.length (Semantic.animation_mappings Semantic.default_animator)
      * ((List.length (split "a loop") + 9) / 10))%nat.
Proof.
  apply (@analyze_trigger_count Semantic.default_animator "a loop" 4).
  reflexivity.
Defined.

(** X19. When [create_animation_overlay] draws an overlay, the instant
    is in the window of the trigger, the duration of the trigger is not
    zero, and the progress given to the drawing method is
    [(t - start) / duration], which is not negative. *)
Theorem overlay_progress :
  forall (tr : Semantic.Trigger) (t : Q) (m : string)
         (tr' : Semantic.Trigger) (p : Q),
    Semantic.create_animation_overlay tr t
    = Ok (Some (Semantic.Drawn m tr' p)) ->
    in_window tr t /\ ~ (Semantic.duration tr == 0)%Q /\ tr' = tr /\
    p = ((t - Semantic.start_time tr) / Semantic.duration tr)%Q /\
    (0 <= p)%Q.
Proof.
  intros tr t m tr' p H.
  destruct (overlay_cases tr t) as [[E _]|[E|[[m' E] [Hw Hd]]]];
    rewrite E in H; try discriminate.
  injection H as Hm Htr Hp. subst m' tr' p.
  destruct Hw as [H1 H2].
  assert (Hpos : (0 < Semantic.duration tr)%Q).
  { destruct (Qlt_le_dec 0 (Semantic.duration tr)) as [L|L]; [exact L|].
    exfalso. apply Hd. lra. }
  repeat split; try assumption.
  apply Qle_shift_div_l; [exact Hpos | lra].
Qed.

Lemma overlay_progress_witness :
  let tr := Semantic.mkTrigger "loop_spin" 0 2 "a loop" "loop" "🔄"
              (100, 255, 100)%nat in
  in_window tr 1 /\ ~ (Semantic.duration tr == 0)%Q /\ tr = tr /\
  ((1 - 0) / 2 = (1 - Semantic.start_time tr) / Semantic.duration tr)%Q /\
  (0 <= (1 - 0) / 2)%Q.
Proof.
  intros tr.
  apply (@overlay_progress tr 1 "_create_loop_spin_animation" tr).
  reflexivity.
Defined.

(** X20. [create_animation_overlay] raises [ZeroDivisionError] exactly
    when the duration of the trigger is zero and the instant is its
    start, whatever the type of the trigger: the progress is computed
    before the type is looked at. *)
Theorem overlay_raises :
  forall (tr : Semantic.Trigger) (t : Q),
    Semantic.create_animation_overlay tr t = Raise ZeroDivisionError
    <-> ((Semantic.duration tr == 0)%Q /\ (t == Semantic.start_time tr)%Q).
Proof.
  intros tr t. split.
  - intros H.
    destruct (overlay_cases tr t) as [[_ [[H1 H2] Hd]]|[E|[[m E] _]]];
      try (rewrite E in H; discriminate).
    split; [exact Hd | lra].
  - intros [Hd Ht]. unfold Semantic.create_animation_overlay.
    assert (E1 : ltb t (Semantic.start_time tr) = false)
      by (apply ltb_false; lra).
    assert (E2 : gtb t (Semantic.start_time tr + Semantic.duration tr) = false)
      by (apply gtb_false; lra).
    rewrite E1, E2. cbn [orb]. now rewrite (fdiv_zero _ Hd).
Qed.

(** X21. For a trigger whose type is one of the animation names of the
    table and whose duration is not zero, [create_animation_overlay]
    draws an overlay exactly when the instant is in the window
    [start, start + duration], both ends included. *)
Theorem overlay_iff_window :
  forall (tr : Semantic.Trigger) (t : Q),
    In (Semantic.type tr) (animation_names Semantic.default_animator) ->
    ~ (Semantic.duration tr == 0)%Q ->
    ((exists img, Semantic.create_animation_overlay tr t = Ok (Some img))
     <-> in_window tr t).
Proof. intros tr t. apply overlay_of_animation_name. Qed.

Lemma overlay_iff_window_witness :
  let tr := Semantic.mkTrigger "loop_spin" 0 2 "a loop" "loop" "🔄"
              (100, 255, 100)%nat in
  ((exists img, Semantic.create_animation_overlay tr 1 = Ok (Some img))
   <-> in_window tr 1).
Proof.
  intros tr. apply (@overlay_iff_window tr 1).
  - simpl. tauto.
  - discriminate.
Defined.

(** X22. On the triggers that [analyze_narration] makes from the table
    of [__init__], [apply_animations_to_frame] pastes no overlay, at any
    instant: the frame is returned as it came. *)
Theorem analyzed_triggers_paste_nothing :
  forall (txt : string) (d : Q) (trs : list Semantic.Trigger) (t : Q),
    Semantic.analyze_narration Semantic.default_animator txt d = Ok trs ->
    Semantic.apply_animations_to_frame trs t = Ok [].
Proof.
  intros txt d trs t H. unfold Semantic.apply_animations_to_frame.
  apply pasted_none. intros i tr Hin.
  apply enumerate_in in Hin.
  exact (@overlay_of_analyzed_trigger _ _ _ _ t H (proj2 Hin)).
Qed.

Lemma analyzed_triggers_paste_nothing_witness :
  Semantic.apply_animations_to_frame
    [Semantic.mkTrigger "loop"
       (of_nat 0 * (4 / of_nat (Nat.max 1 (2 / 10))))
       2 "a loop" "loop" "🔄" (100, 255, 100)%nat] 1
  = Ok [].
Proof.
  apply (@analyzed_triggers_paste_nothing "a loop" 4). reflexivity.
Defined.

(** ** The segments of the speech bubble:
       [_split_narration_into_segments] *)

Section SpeechSegments.

Import Avatar.

Local Open Scope Q_scope.

Lemma segments_end_snoc (t : Q) (a : list Segment) (s : Segment) :
  segments_end t (a ++ [s]) = start s + duration s.
Proof. unfold segments_end. now rewrite fold_left_app. Qed.

Lemma segments_chain_wd (t t' : Q) (segs : list Segment) :
  t == t' -> segments_chain t segs -> segments_chain t' segs.
Proof.
  intros E. destruct segs as [|s segs]; simpl; [tauto|].
  intros [H1 H2]. split; [now rewrite <- E | exact H2].
Qed.

Lemma segments_chain_snoc (t : Q) (a : list Segment) (s : Segment) :
  segments_chain t (a ++ [s]) <->
  segments_chain t a /\ start s == segments_end t a.
Proof.
  revert t. induction a as [|x a IH]; intros t; simpl.
  - unfold segments_end. simpl. tauto.
  - rewrite IH. unfold segments_end. simpl. tauto.
Qed.

Lemma Forall_removelast (A : Type) (P : A -> Prop) (l : list A) :
  Forall P l -> Forall P (removelast l).
Proof.
  induction 1 as [|x l Hx Hl IH]; simpl; [constructor|].
  destruct l; [constructor | constructor; assumption].
Qed.

(** The loop returns when its divisor is not zero, and keeps the chain;
    all its segments but the last end before [dur]; their texts are the
    groups of the indices it went through; it makes a segment when it
    has an index to go through. *)
Lemma split_loop_spec (ws : list string) (wps : Q) (k : nat) (dur : Q)
      (idx : list nat) :
  forall (segs : list Segment) (ct : Q),
    idx = [] \/ ~ wps == 0 ->
    split_inv dur segs ct ->
    exists res m,
      split_loop ws wps k dur idx segs ct = Ok res /\
      segments_chain 0 res /\
      Forall (ends_before dur) (removelast res) /\
      map text res = map text segs ++ map (group_text ws k) (firstn m idx) /\
      (idx <> [] -> res <> []).
Proof.
  induction idx as [|i idx IH]; intros segs ct Hw (Hc & He & Hb).
  - exists segs, 0%nat. simpl. rewrite app_nil_r.
    repeat split; try assumption; [apply Forall_removelast, Hb | congruence].
  - destruct Hw as [Hw|Hw]; [discriminate|].
    cbn [split_loop]. rewrite (fdiv_ok _ Hw). cbn [bind].
    set (new := mkSegment (join (slice ws i (i + k))) ct
                  (of_nat (List.length (slice ws i (i + k))) / wps)).
    assert (Hc' : segments_chain 0 (segs ++ [new])).
    { apply segments_chain_snoc. split; [exact Hc|]. simpl. now rewrite He. }
    destruct (geb (ct + of_nat (List.length (slice ws i (i + k))) / wps) dur)
      eqn:E.
    + exists (segs ++ [new]), 1%nat. split; [reflexivity|].
      split; [exact Hc'|]. rewrite removelast_last. split; [exact Hb|].
      split; [rewrite map_app; reflexivity|].
      intros _ H. apply app_eq_nil in H. destruct H as [_ H]. discriminate H.
    + apply geb_false in E.
      destruct (IH (segs ++ [new])
                   (ct + of_nat (List.length (slice ws i (i + k))) / wps))
        as (res & m & H1 & H2 & H3 & H4 & _).
      * right. exact Hw.
      * split; [exact Hc'|]. split; [rewrite segments_end_snoc; reflexivity|].
        apply Forall_app. split; [exact Hb|].
        constructor; [exact E | constructor].
      * exists res, (S m). split; [exact H1|]. split; [exact H2|].
        split; [exact H3|].
        split; [rewrite H4, map_app, <- app_assoc; reflexivity|].
        intros _ Hr. rewrite Hr in H4. simpl in H4. symmetry in H4.
        apply app_eq_nil in H4. destruct H4 as [H4 _].
        rewrite map_app in H4. apply app_eq_nil in H4.
        destruct H4 as [_ H4]. discriminate H4.
Qed.

Lemma adjust_last_spec (segs : list Segment) (dur : Q) :
  segments_chain 0 segs ->
  Forall (ends_before dur) (removelast segs) ->
  segments_chain 0 (adjust_last segs dur) /\
  Forall (ends_by dur) (adjust_last segs dur) /\
  map text (adjust_last segs dur) = map text segs /\
  removelast (adjust_last segs dur) = removelast segs.
Proof.
  intros Hc Hb. unfold adjust_last.
  destruct segs as [|s0 segs0] eqn:Es; [simpl; repeat split; constructor|].
  rewrite <- Es in *.
  assert (Hne : segs <> []) by (rewrite Es; discriminate).
  destruct (exists_last Hne) as [a [l Ea]]. rewrite Ea in *.
  rewrite removelast_last in Hb. rewrite rev_app_distr. simpl.
  assert (Hle : Forall (ends_by dur) a).
  { eapply Forall_impl; [|exact Hb]. intros x Hx.
    unfold ends_by, ends_before in *. lra. }
  destruct (gtb (start l + duration l) dur) eqn:E.
  - rewrite rev_involutive. split; [|split; [|split]].
    + apply segments_chain_snoc. apply segments_chain_snoc in Hc. exact Hc.
    + apply Forall_app. split; [exact Hle|].
      constructor; [|constructor]. unfold ends_by. simpl. lra.
    + rewrite !map_app. reflexivity.
    + rewrite !removelast_last. reflexivity.
  - apply gtb_false in E. split; [exact Hc|].
    split; [|split; reflexivity].
    apply Forall_app. split; [exact Hle|].
    constructor; [exact E | constructor].
Qed.

(** The number of words in a group. *)
Lemma range_step_zero (k : nat) : (1 <= k)%nat -> range_step 0 k = [].
Proof.
  intros Hk. unfold range_step.
  replace ((0 + k - 1) / k)%nat with 0%nat; [reflexivity|].
  symmetry. apply Nat.div_small. lia.
Qed.

Lemma range_step_nonempty (n k : nat) :
  (1 <= k)%nat -> (1 <= n)%nat -> range_step n k <> [].
Proof.
  intros Hk Hn. unfold range_step.
  assert (H : (1 <= (n + k - 1) / k)%nat).
  { apply Nat.div_le_lower_bound; lia. }
  destruct ((n + k - 1) / k)%nat; [lia | discriminate].
Qed.

Lemma firstn_min_length (A : Type) (m : nat) (l : list A) :
  firstn (Nat.min m (List.length l)) l = firstn m l.
Proof.
  destruct (Nat.le_ge_cases m (List.length l)) as [H|H].
  - rewrite Nat.min_l by exact H. reflexivity.
  - rewrite Nat.min_r by exact H. rewrite firstn_all.
    symmetry. apply firstn_all2. exact H.
Qed.

(** What [_split_narration_into_segments] does on a text that is not
    empty, by the cases of its divisions. *)
Lemma split_narration_cases (txt : string) (d : Q) :
  truthy_str txt = true ->
  (d == 0 /\ (5 < List.length (split txt))%nat /\
   _split_narration_into_segments txt d = Raise ZeroDivisionError)
  \/
  (~ (d == 0 /\ (5 < List.length (split txt))%nat) /\
   exists res k m,
     _split_narration_into_segments txt d = Ok res /\
     (2 <= k)%nat /\
     segments_chain 0 res /\
     Forall (ends_by d) res /\
     map text res
     = map (group_text (split txt) k)
           (firstn m (range_step (List.length (split txt)) k)) /\
     (split txt <> [] -> res <> []) /\
     Forall (ends_before d) (removelast res)).
Proof.
  intros Ht. unfold _split_narration_into_segments. rewrite Ht. cbn [negb].
  set (n := List.length (split txt)).
  assert (H52 : ~ 5 # 2 == 0) by discriminate.
  rewrite (fdiv_ok _ H52). cbn [bind].
  assert (Hn0 : 0 <= of_nat n) by apply of_nat_nonneg.
  assert (Hest : of_nat n / (5 # 2) == of_nat n * (2 # 5)) by (field).
  assert (Hfin :
            forall wps : Q,
              (n = 0%nat \/ ~ wps == 0) ->
              exists res k m,
                bind (split_loop (split txt) wps
                        (Z.to_nat (Z.max 2 (int (wps * (6 # 5))))) d
                        (range_step n
                           (Z.to_nat (Z.max 2 (int (wps * (6 # 5)))))) [] 0)
                     (fun segments => ret (adjust_last segments d))
                = Ok res /\
                (2 <= k)%nat /\ segments_chain 0 res /\
                Forall (ends_by d) res /\
                map text res
                = map (group_text (split txt) k) (firstn m (range_step n k)) /\
                (split txt <> [] -> res <> []) /\
                Forall (ends_before d) (removelast res)).
  { intros wps Hw.
    set (k := Z.to_nat (Z.max 2 (int (wps * (6 # 5))))).
    assert (Hk : (2 <= k)%nat) by (unfold k; lia).
    destruct (@split_loop_spec (split txt) wps k d (range_step n k) [] 0)
      as (res & m & H1 & H2 & H3 & H4 & H5).
    - destruct Hw as [-> | Hw]; [left; apply range_step_zero; lia | right; exact Hw].
    - repeat split; constructor.
    - rewrite H1. cbn [bind ret].
      destruct (@adjust_last_spec res d H2 H3) as (A1 & A2 & A3 & A4).
      exists (adjust_last res d), k, m.
      split; [reflexivity|]. split; [exact Hk|]. split; [exact A1|].
      split; [exact A2|]. split; [rewrite A3, H4; reflexivity|].
      split; [|rewrite A4; exact H3].
      intros Hws Hr.
      assert (Hres : res = []).
      { apply (f_equal (map text)) in Hr. rewrite A3 in Hr.
        destruct res; [reflexivity | discriminate Hr]. }
      apply H5; [|exact Hres].
      apply range_step_nonempty; [lia|].
      unfold n. destruct (split txt); [congruence | simpl; lia]. }
  destruct (gtb (Qabs (of_nat n / (5 # 2) - d)) 2) eqn:G.
  - destruct (Qeq_bool d 0) eqn:D.
    + left. apply Qeq_bool_iff in D. split; [exact D|].
      split; [|now rewrite (fdiv_zero _ D)].
      apply gtb_true in G. rewrite D in G.
      assert (Hq : 5 < of_nat n).
      { revert G. apply Qabs_case; intros; lra. }
      unfold of_nat in Hq. change 5 with (inject_Z 5) in Hq.
      rewrite <- Zlt_Qlt in Hq. lia.
    + right.
      assert (Hd : ~ d == 0).
      { intros H. apply Qeq_bool_iff in H. congruence. }
      split; [tauto|]. rewrite (fdiv_ok _ Hd). cbn [bind]. apply Hfin.
      destruct n as [|n'] eqn:En; [left; reflexivity|right].
      intros H.
      assert (Hpos : 0 < of_nat (S n')) by (apply (of_nat_lt (n := 0)); lia).
      assert (Hmul : d * (of_nat (S n') / d) == of_nat (S n'))
        by (apply Qmult_div_r, Hd).
      rewrite H in Hmul. lra.
  - right. split.
    + intros [D Hn]. apply gtb_false in G. rewrite D in G.
      assert (Hq : 5 < of_nat n).
      { unfold of_nat. change 5 with (inject_Z 5). rewrite <- Zlt_Qlt. lia. }
      revert G. apply Qabs_case; intros; lra.
    + cbn [bind ret]. apply Hfin. right. exact H52.
Qed.

End SpeechSegments.

Lemma truthy_str_iff (s : string) : truthy_str s = true <-> s <> EmptyString.
Proof. destruct s; simpl; split; congruence. Qed.

(** X23. [_split_narration_into_segments] raises [ZeroDivisionError]
    exactly when the narration text is not empty, the duration is zero
    and the text has more than five words; in every other case it
    returns. *)
Theorem split_narration_raises :
  forall (txt : string) (d : Q),
    Avatar._split_narration_into_segments txt d = Raise ZeroDivisionError
    <-> (txt <> EmptyString /\ (d == 0)%Q /\
         (5 < List.length (split txt))%nat).
Proof.
  intros txt d. destruct (truthy_str txt) eqn:Ht.
  - pose proof (proj1 (truthy_str_iff txt) Ht) as Hne.
    destruct (@split_narration_cases txt d Ht)
      as [(H1 & H2 & H3) | (H1 & res & k & m & H2 & _)].
    + rewrite H3. tauto.
    + rewrite H2. split; [discriminate | tauto].
  - unfold Avatar._split_narration_into_segments. rewrite Ht. simpl.
    split; [discriminate|].
    intros [Hne _]. apply truthy_str_iff in Hne. congruence.
Qed.

(** X24. The segments that [_split_narration_into_segments] makes from
    a narration text that is not empty follow one another from 0 without
    a gap (each starts where the previous one ends), and none of them
    ends after the duration. *)
Theorem split_narration_segments :
  forall (txt : string) (d : Q) (res : list Avatar.Segment),
    txt <> EmptyString ->
    Avatar._split_narration_into_segments txt d = Ok res ->
    segments_chain 0 res /\ Forall (ends_by d) res.
Proof.
  intros txt d res Hne H. apply truthy_str_iff in Hne.
  destruct (@split_narration_cases txt d Hne)
    as [(_ & _ & H3) | (_ & res' & k & m & H2 & _ & H4 & H5 & _)].
  - rewrite H3 in H. discriminate.
  - rewrite H2 in H. inversion H; subst. tauto.
Qed.

Lemma split_narration_segments_witness :
  exists res,
    Avatar._split_narration_into_segments "a b c d e f g" 3 = Ok res /\
    segments_chain 0 res /\ Forall (ends_by 3) res.
Proof.
  eexists. split; [reflexivity|].
  apply (@split_narration_segments "a b c d e f g" 3).
  - discriminate.
  - reflexivity.
Defined.

(** X25. For a narration text that is not empty there is a group size
    [k >= 2] such that the texts of the segments of
    [_split_narration_into_segments] are, in order, the first groups of
    [range(0, total_words, k)]: the text of the segment [j] is the words
    [j * k] to [j * k + k] joined by blanks. A narration with a word
    gives a segment, and every segment before the last ends before the
    duration: a segment that reaches the duration is the last one
    made. *)
Theorem split_narration_texts :
  forall (txt : string) (d : Q) (res : list Avatar.Segment),
    txt <> EmptyString ->
    Avatar._split_narration_into_segments txt d = Ok res ->
    exists k : nat,
      (2 <= k)%nat /\
      map Avatar.text res
      = map (group_text (split txt) k)
            (firstn (List.length res)
                    (range_step (List.length (split txt)) k)) /\
      (split txt <> [] -> res <> []) /\
      Forall (ends_before d) (removelast res).
Proof.
  intros txt d res Hne H. apply truthy_str_iff in Hne.
  destruct (@split_narration_cases txt d Hne)
    as [(_ & _ & H3)
       | (_ & res' & k & m & H2 & Hk & _ & _ & H6 & H7 & H8)].
  - rewrite H3 in H. discriminate.
  - rewrite H2 in H. injection H as ->. exists k.
    split; [exact Hk|]. split; [|split; assumption].
    assert (Hl : List.length res
                 = Nat.min m (List.length
                                (range_step (List.length (split txt)) k))).
    { rewrite <- (length_map Avatar.text res), H6, length_map.
      apply length_firstn. }
    rewrite Hl, firstn_min_length. exact H6.
Qed.

Lemma split_narration_texts_witness :
  exists res k,
    Avatar._split_narration_into_segments "a b c d e f g" 3 = Ok res /\
    (2 <= k)%nat /\
    map Avatar.text res
    = map (group_text (split "a b c d e f g") k)
          (firstn (List.length res)
                  (range_step (List.length (split "a b c d e f g")) k)) /\
    (split "a b c d e f g" <> [] -> res <> []) /\
    Forall (ends_before 3) (removelast res).
Proof.
  destruct (Avatar._split_narration_into_segments "a b c d e f g" 3)
    as [res|e] eqn:E; [|vm_compute in E; discriminate E].
  destruct (@split_narration_texts "a b c d e f g" 3 res) as (k & Hk).
  - discriminate.
  - exact E.
  - exists res, k. split; [reflexivity | exact Hk].
Defined.

(** ** The frames of the avatar video *)

Section AvatarFrames.

Import Avatar.

Local Open Scope Q_scope.

Lemma inject_Z_nonzero (z : Z) : z <> 0%Z -> ~ inject_Z z == 0.
Proof. intros Hz H. unfold Qeq in H. simpl in H. lia. Qed.

Lemma split_narration_ok (txt : string) (d : Q) :
  ~ d == 0 -> exists segs, _split_narration_into_segments txt d = Ok segs.
Proof.
  intros Hd. destruct (truthy_str txt) eqn:Ht.
  - destruct (@split_narration_cases txt d Ht)
      as [(H1 & _) | (_ & res & k & m & H2 & _)]; [tauto|].
    exists res. exact H2.
  - unfold _split_narration_into_segments. rewrite Ht.
    eexists. reflexivity.
Qed.

Lemma frames_loop (n : Z) (d : Q) :
  n <> 1%Z ->
  mapM (fun i =>
          bind (fdiv (of_nat i) (inject_Z (n - 1)))
               (fun progress => ret (progress, progress * d)))
       (seq 0 (Z.to_nat n))
  = Ok (map (frame_at n d) (seq 0 (Z.to_nat n))).
Proof.
  intros Hn. apply mapM_pure. intros i _.
  rewrite fdiv_ok by (apply inject_Z_nonzero; lia). reflexivity.
Qed.

Lemma single_frame (d : Q) (txt : string) :
  _create_avatar_frames 1 d txt = Raise ZeroDivisionError.
Proof.
  unfold _create_avatar_frames.
  destruct (_split_narration_into_segments txt d) as [segs|[]];
    reflexivity.
Qed.

Lemma int_zero (q : Q) : q == 0 -> int q = 0%Z.
Proof.
  intros H. unfold int. unfold Qeq in H. simpl in H.
  rewrite Z.mul_1_r in H. rewrite H. reflexivity.
Qed.

End AvatarFrames.

(** X26. With exactly one frame to make, [_create_avatar_frames]
    raises [ZeroDivisionError], whatever the narration and the duration:
    the progress of the frame is [0 / (total_frames - 1)]. *)
Theorem one_frame_raises :
  forall (d : Q) (txt : string),
    Avatar._create_avatar_frames 1 d txt = Raise ZeroDivisionError.
Proof. intros d txt. apply single_frame. Qed.

(** X27. With two frames or more, and a duration that is not zero,
    [_create_avatar_frames] returns [total_frames] frames; the frame [i]
    has the progress [i / (total_frames - 1)] and the time
    [progress * duration]: the first frame is drawn for the time 0 and
    the last one for the duration itself. *)
Theorem avatar_frame_times :
  forall (n : Z) (d : Q) (txt : string),
    (2 <= n)%Z -> ~ (d == 0)%Q ->
    Avatar._create_avatar_frames n d txt
    = Ok (map (frame_at n d) (seq 0 (Z.to_nat n))) /\
    (snd (frame_at n d 0) == 0)%Q /\
    (snd (frame_at n d (Z.to_nat n - 1)) == d)%Q.
Proof.
  intros n d txt Hn Hd. split; [|split].
  - unfold Avatar._create_avatar_frames.
    destruct (split_narration_ok txt Hd) as [segs Hs]. rewrite Hs.
    cbn [bind]. apply frames_loop. lia.
  - unfold frame_at. simpl. unfold of_nat. simpl.
    unfold Qdiv. rewrite !Qmult_0_l. reflexivity.
  - unfold frame_at. simpl.
    assert (E : (of_nat (Z.to_nat n - 1) == inject_Z (n - 1))%Q).
    { unfold of_nat. rewrite Nat2Z.inj_sub by lia.
      rewrite Z2Nat.id by lia. reflexivity. }
    rewrite E. field. apply inject_Z_nonzero. lia.
Qed.

Lemma avatar_frame_times_witness :
  Avatar._create_avatar_frames 3 2 "Hello world"
  = Ok (map (frame_at 3 2) (seq 0 (Z.to_nat 3))) /\
  (snd (frame_at 3 2 0) == 0)%Q /\
  (snd (frame_at 3 2 (Z.to_nat 3 - 1)) == 2)%Q.
Proof.
  apply (@avatar_frame_times 3 2 "Hello world").
  - lia.
  - discriminate.
Defined.

(** X28. The timing of [create_animated_video] raises
    [ZeroDivisionError] exactly when [min(60, int(duration * fps))] is 0
    or 1: an audio shorter than two frames makes no video. *)
Theorem video_clock_raises :
  forall (fps : Z) (d : Q) (txt : string),
    Avatar.create_animated_video fps d txt = Raise ZeroDivisionError
    <-> (frame_count fps d = 0%Z \/ frame_count fps d = 1%Z).
Proof.
  intros fps d txt. unfold Avatar.create_animated_video.
  fold (frame_count fps d).
  destruct (Z.eq_dec (frame_count fps d) 0) as [E0|E0].
  { rewrite E0. simpl. tauto. }
  rewrite (fdiv_ok _ (inject_Z_nonzero E0)). cbn [bind].
  destruct (Z.eq_dec (frame_count fps d) 1) as [E1|E1].
  { rewrite E1, single_frame. simpl. tauto. }
  assert (Hd : ~ (d == 0)%Q).
  { intros H. apply E0. unfold frame_count.
    rewrite int_zero; [reflexivity|]. rewrite H. apply Qmult_0_l. }
  unfold Avatar._create_avatar_frames.
  destruct (split_narration_ok txt Hd) as [segs Hs]. rewrite Hs.
  cbn [bind]. rewrite (frames_loop d E1). cbn [bind ret].
  split; [discriminate | tauto].
Qed.

(** X29. When the timing of [create_animated_video] returns, there are
    at most 60 frames, and the time at which the animations are applied
    to a frame is behind the time the frame is drawn for:
    [animation_time * total_frames = time * (total_frames - 1)]. *)
Theorem video_clock_lag :
  forall (fps : Z) (d : Q) (txt : string) (res : list ((Q * Q) * Q)),
    Avatar.create_animated_video fps d txt = Ok res ->
    (List.length res <= 60)%nat /\
    Forall (fun f =>
              (snd f * inject_Z (frame_count fps d)
               == snd (fst f) * inject_Z (frame_count fps d - 1))%Q)
           res.
Proof.
  intros fps d txt res. unfold Avatar.create_animated_video.
  fold (frame_count fps d).
  destruct (Z.eq_dec (frame_count fps d) 0) as [E0|E0].
  { rewrite E0. simpl. discriminate. }
  rewrite (fdiv_ok _ (inject_Z_nonzero E0)). cbn [bind].
  destruct (Z.eq_dec (frame_count fps d) 1) as [E1|E1].
  { rewrite E1, single_frame. simpl. discriminate. }
  assert (Hd : ~ (d == 0)%Q).
  { intros H. apply E0. unfold frame_count.
    rewrite int_zero; [reflexivity|]. rewrite H. apply Qmult_0_l. }
  unfold Avatar._create_avatar_frames.
  destruct (split_narration_ok txt Hd) as [segs Hs]. rewrite Hs.
  cbn [bind]. rewrite (frames_loop d E1). cbn [bind ret].
  intros H. inversion H; subst. clear H. split.
  - rewrite length_map, length_combine, !length_map, !length_seq.
    unfold frame_count. lia.
  - rewrite Forall_forall. intros f Hf.
    apply in_map_iff in Hf. destruct Hf as [[i fr] [<- Hin]].
    rewrite length_map, length_seq in Hin.
    assert (Hfr : fr = frame_at (frame_count fps d) d i).
    { clear - Hin. revert Hin.
      generalize (Z.to_nat (frame_count fps d)) as n.
      generalize 0%nat as a. intros a n. revert a.
      induction n as [|n IH]; intros a; simpl; [tauto|].
      intros [H|H]; [inversion H; reflexivity | exact (IH _ H)]. }
    subst fr. simpl. field.
    split; apply inject_Z_nonzero; lia.
Qed.

Lemma video_clock_lag_witness :
  exists res,
    Avatar.create_animated_video 24 (1 # 8) "Hello world" = Ok res /\
    (List.length res <= 60)%nat /\
    Forall (fun f =>
              (snd f * inject_Z (frame_count 24 (1 # 8))
               == snd (fst f) * inject_Z (frame_count 24 (1 # 8) - 1))%Q)
           res.
Proof.
  destruct (Avatar.create_animated_video 24 (1 # 8) "Hello world")
    as [res|e] eqn:E; [|vm_compute in E; discriminate E].
  exists res. split; [reflexivity|].
  apply (@video_clock_lag 24 (1 # 8) "Hello world" res). exact E.
Defined.

(** ** The words of a transcript *)

Section TranscriptWords.

Local Open Scope string_scope.

Lemma lstrip_length (s : string) :
  (String.length (lstrip s) <= String.length s)%nat.
Proof.
  induction s as [|c s IH]; simpl; [lia|].
  destruct (isspace c); simpl; lia.
Qed.

Lemma lstrip_same (s : string) :
  String.length (lstrip s) = String.length s -> lstrip s = s.
Proof.
  destruct s as [|c s]; simpl; [reflexivity|].
  destruct (isspace c); [|reflexivity].
  pose proof (lstrip_length s). lia.
Qed.

Lemma rstrip_length (s : string) :
  (String.length (rstrip s) <= String.length s)%nat.
Proof.
  induction s as [|c s IH]; simpl; [lia|].
  destruct (rstrip s); [destruct (isspace c)|]; simpl in *; lia.
Qed.

Lemma rstrip_same (s : string) :
  String.length (rstrip s) = String.length s -> rstrip s = s.
Proof.
  induction s as [|c s IH]; simpl; [reflexivity|].
  pose proof (rstrip_length s) as Hl.
  destruct (rstrip s) as [|c' r] eqn:E.
  - destruct (isspace c); simpl; intros H; [lia|].
    destruct s; [reflexivity | simpl in H; lia].
  - simpl. intros H. f_equal. apply IH. simpl in *. lia.
Qed.

Lemma strip_length (s : string) :
  (String.length (strip s) <= String.length s)%nat.
Proof.
  unfold strip. pose proof (rstrip_length (lstrip s)).
  pose proof (lstrip_length s). lia.
Qed.

Lemma strip_same (s : string) :
  String.length (strip s) = String.length s -> strip s = s.
Proof.
  unfold strip. intros H.
  pose proof (rstrip_length (lstrip s)). pose proof (lstrip_length s).
  rewrite rstrip_same by lia. apply lstrip_same. lia.
Qed.

End TranscriptWords.

(** X30. A word of a transcript gets one char position per character of
    the word as the transcript gives it, and the word itself is stored
    stripped: it has more char positions than characters exactly when
    stripping removes a blank. *)
Theorem transcript_word_shape :
  forall (raw : string) (s e : Q),
    exists w,
      Typewriter.transcript_word raw s e = Ok w /\
      Typewriter.word w = strip raw /\
      List.length (Typewriter.char_positions w) = String.length raw /\
      (positions_fit w <-> strip raw = raw).
Proof.
  intros raw s e. unfold Typewriter.transcript_word.
  destruct (char_timings_ok raw s e) as [cps [Hc Hl]].
  rewrite Hc. cbn [bind ret]. eexists. split; [reflexivity|].
  split; [reflexivity|]. split; [exact Hl|].
  unfold positions_fit. simpl. rewrite Hl.
  pose proof (strip_length raw) as Hs. split.
  - intros H. apply strip_same. lia.
  - intros ->. lia.
Qed.
